(** * nanobot bridge: quiz engine (kotaete.ts) and mention filter (whatsapp.ts)

    A shallow embedding of the quiz/answer engine [Kotaete] and of the
    identity resolution used by the mention filter of [WhatsAppClient],
    together with the properties of the written specification that concern
    them.

    Conventions.
    - A JavaScript string is the list of its UTF-16 code units ([jsstring]);
      [length], indexing, [===] and [includes] all work on code units.
    - JavaScript numbers that occur here are array indices, string lengths
      and small counters; they are modelled by [nat].
    - [async] methods run to completion one after the other; a rejected
      promise is an [inl] outcome, and the state reached when the exception
      was thrown is kept. *)

From Stdlib Require Import String Ascii NArith ZArith Lia.
From stdpp Require Import base tactics option list.

Local Open Scope nat_scope.

(** ** Strings *)

Abbreviation jsstring := (list N).

(** A literal of the source, all of whose characters are ASCII. *)
Definition js (s : string) : jsstring :=
  map N_of_ascii (list_ascii_of_string s).

(** [WhiteSpace] and [LineTerminator] of ECMAScript: what [trim] removes. *)
Definition isWhiteSpace (c : N) : bool :=
  ((9 <=? c) && (c <=? 13) || (c =? 32) || (c =? 160) || (c =? 0x1680)
   || (0x2000 <=? c) && (c <=? 0x200A)
   || (c =? 0x2028) || (c =? 0x2029) || (c =? 0x202F) || (c =? 0x205F)
   || (c =? 0x3000) || (c =? 0xFEFF))%N.

Fixpoint trimStart (s : jsstring) : jsstring :=
  match s with
  | c :: s' => if isWhiteSpace c then trimStart s' else s
  | [] => []
  end.

Definition trimEnd (s : jsstring) : jsstring := rev (trimStart (rev s)).

(** [String.prototype.trim] *)
Definition trim (s : jsstring) : jsstring := trimEnd (trimStart s).

(** [String.prototype.startsWith] *)
Fixpoint startsWith (s p : jsstring) {struct p} : bool :=
  match p, s with
  | [], _ => true
  | _ :: _, [] => false
  | x :: p', y :: s' => (x =? y)%N && startsWith s' p'
  end.

(** [String.prototype.includes]: [p] occurs in [s] at some position. *)
Fixpoint includes (s p : jsstring) : bool :=
  startsWith s p ||
  match s with
  | [] => false
  | _ :: s' => includes s' p
  end.

(** [toLowerCase] restricted to strings of ASCII characters, where it maps
    [A-Z] to [a-z] and leaves every other code unit alone.  The engine is
    stated over an arbitrary lower-casing function; this one instantiates it
    on the concrete ASCII inputs of the examples. *)
Definition asciiLower (c : N) : N :=
  if ((65 <=? c) && (c <=? 90))%N then (c + 32)%N else c.

Definition asciiToLowerCase (s : jsstring) : jsstring := map asciiLower s.

(** ** The dynamic-programming table of [levenshteinDistance]

    [dp] is an array of [m + 1] distinct row arrays of [n + 1] numbers.  A
    read [dp[i][j]] is [tget]; a write [dp[i][j] = v] is [tset].  Every index
    the function uses lies inside the table ([lev_table_shape]); the
    value given to an outside read, and a write outside doing nothing, are
    never exercised. *)

Definition tget (dp : list (list nat)) (i j : nat) : nat :=
  default 0 (dp !! i ≫= fun row => row !! j).

Definition tset (dp : list (list nat)) (i j v : nat) : list (list nat) :=
  alter (fun row => <[j := v]> row) i dp.

(** [for (let k = lo; k <= hi; k++) body] with [hi = lo + len - 1]. *)
Definition for_range {A} (lo len : nat) (body : A -> nat -> A) (init : A) : A :=
  fold_left body (seq lo len) init.

Section Levenshtein.
Variables str1 str2 : jsstring.

(** The body of the inner loop, lines 192-200. *)
Definition lev_cell (dp : list (list nat)) (i j : nat) : list (list nat) :=
  if bool_decide (str1 !! (i - 1) = str2 !! (j - 1)) then
    tset dp i j (tget dp (i - 1) (j - 1))
  else
    tset dp i j
      (1 + Nat.min (tget dp (i - 1) j)
                   (Nat.min (tget dp i (j - 1)) (tget dp (i - 1) (j - 1)))).

Definition lev_table : list (list nat) :=
  let m := length str1 in
  let n := length str2 in
  let dp := replicate (m + 1) (replicate (n + 1) 0) in
  let dp := for_range 0 (m + 1) (fun dp i => tset dp i 0 i) dp in
  let dp := for_range 0 (n + 1) (fun dp j => tset dp 0 j j) dp in
  for_range 1 m (fun dp i => for_range 1 n (fun dp j => lev_cell dp i j) dp) dp.

Definition levenshteinDistance : nat :=
  tget lev_table (length str1) (length str2).

(** The recurrence the table is filled by, as a function of the cell. *)
Fixpoint lev_rec (i : nat) : nat -> nat :=
  match i with
  | 0 => fun j => j
  | S i' =>
      fix row (j : nat) : nat :=
        match j with
        | 0 => S i'
        | S j' =>
            if bool_decide (str1 !! i' = str2 !! j') then lev_rec i' j'
            else 1 + Nat.min (lev_rec i' (S j')) (Nat.min (row j') (lev_rec i' j'))
        end
  end.
End Levenshtein.

(** [isCloseMatch].  [Math.floor(answer1.length * 0.1)] is the integer
    quotient of the length by ten: the double written [0.1] exceeds one tenth
    by less than [6e-18], so for a length below [2^32] the rounded product
    stays at or above the quotient when the length is a multiple of ten and
    strictly between two integers otherwise. *)
Definition isCloseMatch (answer1 answer2 : jsstring) : bool :=
  let distance := levenshteinDistance answer1 answer2 in
  if (length answer1 <=? 10) && (distance <=? 2) then true
  else if 10 <? length answer1 then
    let maxDistance := Nat.max 3 (length answer1 / 10) in
    distance <=? maxDistance
  else false.

(** ** The quiz engine: data *)

Module QuizState.
Record t := mk {
  active : bool;
  question : jsstring;
  correctAnswer : jsstring;
  startTime : Z;
  chatId : jsstring;
  messageId : option jsstring
}.
End QuizState.

Module MessageKey.
Record t := mk { id : jsstring; remoteJid : jsstring }.
End MessageKey.

Inductive EndReason := answered | timeout | cancelled.

(** A thrown [Error] object with its message. *)
Inductive exn := Error (message : jsstring).

(** Calls the engine makes on its collaborators, in the order made: the two
    methods of the [MessageSender] and the two callbacks of the options. *)
Inductive Call :=
| SendMessage (to text : jsstring)
| SendReact (to emoji : jsstring) (messageKey : MessageKey.t)
| OnQuizStart (quiz : QuizState.t)
| OnQuizEnd (reason : EndReason).

(** What is outside the engine: the transport, the control channel and the
    clock live in a [World]; [toLowerCase] is the string primitive. *)
Class Runtime (World : Type) := {
  Date_now : World -> Z;
  toLowerCase : jsstring -> jsstring
}.

(** [interface MessageSender]: both methods may reject. *)
Record MessageSender (World : Type) := {
  sendMessage : jsstring -> jsstring -> World -> (exn + unit) * World;
  sendReact : jsstring -> jsstring -> MessageKey.t -> World -> (exn + unit) * World
}.
Arguments sendMessage {World}.
Arguments sendReact {World}.

(** [interface KotaeteOptions]: both callbacks are optional. *)
Record KotaeteOptions (World : Type) := {
  onQuizStart : option (QuizState.t -> World -> World);
  onQuizEnd : option (EndReason -> World -> World)
}.
Arguments onQuizStart {World}.
Arguments onQuizEnd {World}.

(** [class Kotaete] *)
Record Kotaete (World : Type) := {
  sender : MessageSender World;
  currentQuiz : option QuizState.t;
  options : KotaeteOptions World
}.
Arguments sender {World}.
Arguments currentQuiz {World}.
Arguments options {World}.

(** A configuration: the engine object, the world around it, and the calls
    made so far. *)
Record Config (World : Type) := {
  this : Kotaete World;
  world : World;
  calls : list Call
}.
Arguments this {World}.
Arguments world {World}.
Arguments calls {World}.

(** An [async] method body: it ends normally ([inr]) or throws ([inl]), and in
    both cases leaves a configuration. *)
Definition M (World A : Type) : Type := Config World -> (exn + A) * Config World.

#[global] Instance M_ret {World} : MRet (M World) :=
  fun A a c => (inr a, c).

#[global] Instance M_bind {World} : MBind (M World) :=
  fun A B k m c =>
    match m c with
    | (inl e, c') => (inl e, c')
    | (inr a, c') => k a c'
    end.

Definition throw {World A} (e : exn) : M World A := fun c => (inl e, c).

Section Engine.
Context {World : Type} {RT : Runtime World}.

Definition get_currentQuiz : M World (option QuizState.t) :=
  fun c => (inr (currentQuiz (this c)), c).

Definition set_currentQuiz (q : option QuizState.t) : M World unit :=
  fun c =>
    (inr tt,
     {| this := {| sender := sender (this c); currentQuiz := q;
                   options := options (this c) |};
        world := world c; calls := calls c |}).

Definition now : M World Z := fun c => (inr (Date_now (world c)), c).

(** [await this.sender.sendMessage(to, text)] *)
Definition sender_sendMessage (to text : jsstring) : M World unit :=
  fun c =>
    let (r, w) := sendMessage (sender (this c)) to text (world c) in
    (r, {| this := this c; world := w;
           calls := calls c ++ [SendMessage to text] |}).

(** [await this.sender.sendReact(to, emoji, messageKey)] *)
Definition sender_sendReact (to emoji : jsstring) (messageKey : MessageKey.t)
  : M World unit :=
  fun c =>
    let (r, w) := sendReact (sender (this c)) to emoji messageKey (world c) in
    (r, {| this := this c; world := w;
           calls := calls c ++ [SendReact to emoji messageKey] |}).

(** [this.options.onQuizStart?.(quiz)] *)
Definition options_onQuizStart (quiz : QuizState.t) : M World unit :=
  fun c =>
    match onQuizStart (options (this c)) with
    | Some handler =>
        (inr tt, {| this := this c; world := handler quiz (world c);
                    calls := calls c ++ [OnQuizStart quiz] |})
    | None => (inr tt, c)
    end.

(** [this.options.onQuizEnd?.(reason)] *)
Definition options_onQuizEnd (reason : EndReason) : M World unit :=
  fun c =>
    match onQuizEnd (options (this c)) with
    | Some handler =>
        (inr tt, {| this := this c; world := handler reason (world c);
                    calls := calls c ++ [OnQuizEnd reason] |})
    | None => (inr tt, c)
    end.

(** The emoji of the source as UTF-16. *)
Definition MEMO : jsstring := [0xD83D; 0xDCDD]%N.
Definition CHECK_MARK : jsstring := [0x2705]%N.
Definition SPARKLES : jsstring := [0x2728]%N.
Definition MAGNIFIER : jsstring := [0xD83D; 0xDD0D]%N.

(** The template literal of line 62. *)
Definition quizMessage (question : jsstring) : jsstring :=
  MEMO ++ js " Quiz: " ++ question ++ [10; 10]%N ++ js "Reply with your answer!".

Definition startQuiz (chatId question correctAnswer : jsstring)
    (replyToMessageId : option jsstring) : M World unit :=
  cur ← get_currentQuiz;
  match cur with
  | Some _ => throw (Error (js "A quiz is already active"))
  | None =>
      let message := quizMessage question in
      sender_sendMessage chatId message;;
      t ← now;
      set_currentQuiz
        (Some (QuizState.mk true question (trim (toLowerCase correctAnswer))
                            t chatId replyToMessageId));;
      cur ← get_currentQuiz;
      match cur with
      | Some quiz => options_onQuizStart quiz
      | None => mret tt
      end
  end.

Definition endQuiz (reason : EndReason) : M World unit :=
  cur ← get_currentQuiz;
  match cur with
  | None => mret tt
  | Some quiz =>
      set_currentQuiz None;;
      options_onQuizEnd reason
  end.

Definition checkAnswer (chatId messageContent : jsstring)
    (messageKey : MessageKey.t) : M World unit :=
  cur ← get_currentQuiz;
  match cur with
  | None => mret tt
  | Some quiz =>
      if negb (bool_decide (QuizState.chatId quiz = chatId)) then mret tt
      else
        let userAnswer := trim (toLowerCase messageContent) in
        let correctAnswer := QuizState.correctAnswer quiz in
        if bool_decide (userAnswer = correctAnswer) then
          sender_sendReact chatId CHECK_MARK messageKey;;
          sender_sendMessage chatId (CHECK_MARK ++ js " Correct!");;
          endQuiz answered
        else if includes userAnswer correctAnswer
                || includes correctAnswer userAnswer then
          sender_sendReact chatId SPARKLES messageKey
        else if isCloseMatch userAnswer correctAnswer then
          sender_sendReact chatId MAGNIFIER messageKey
        else mret tt
  end.

Definition getQuiz (c : Config World) : option QuizState.t :=
  currentQuiz (this c).

Definition isQuizActive (c : Config World) : bool :=
  match currentQuiz (this c) with Some _ => true | None => false end.
End Engine.

(** ** The answer matcher as the specification words it *)

Inductive MatchTier := Exact | Partial | Close | NoMatch.

Section Matcher.
Context {World : Type} {RT : Runtime World}.

(** Step 1: lower-case, then trim. *)
Definition normalize (s : jsstring) : jsstring := trim (toLowerCase s).

(** Steps 2 to 5 on the normalized strings, first match wins.  [L] is the
    length of the candidate as it is matched, that is, after step 1. *)
Definition matchTier (x y : jsstring) : MatchTier :=
  let d := levenshteinDistance x y in
  let L := length x in
  if bool_decide (x = y) then Exact
  else if includes x y || includes y x then Partial
  else if (if L <=? 10 then d <=? 2 else d <=? Nat.max 3 (L / 10)) then Close
  else NoMatch.

Definition classify (candidate correct : jsstring) : MatchTier :=
  matchTier (normalize candidate) (normalize correct).

(** What the engine does for each tier (the [checkAnswer] row of the
    transition table). *)
Definition respond (chatId : jsstring) (messageKey : MessageKey.t)
    (tier : MatchTier) : M World unit :=
  match tier with
  | Exact =>
      sender_sendReact chatId CHECK_MARK messageKey;;
      sender_sendMessage chatId (CHECK_MARK ++ js " Correct!");;
      endQuiz answered
  | Partial => sender_sendReact chatId SPARKLES messageKey
  | Close => sender_sendReact chatId MAGNIFIER messageKey
  | NoMatch => mret tt
  end.
End Matcher.

(** ** A concrete bridge, for running the engine on examples

    The world is the clock; the transport accepts every send; the control
    channel listens to both notifications, as [createKotaete] sets it up. *)

#[global] Instance asciiRuntime : Runtime Z := {
  Date_now := fun w => w;
  toLowerCase := asciiToLowerCase
}.

Definition okSender : MessageSender Z := {|
  sendMessage := fun _ _ w => (inr tt, w);
  sendReact := fun _ _ _ w => (inr tt, w)
|}.

(** A transport that is not connected: [WhatsAppClient.sendMessage] throws. *)
Definition downSender : MessageSender Z := {|
  sendMessage := fun _ _ w => (inl (Error (js "Not connected")), w);
  sendReact := fun _ _ _ w => (inl (Error (js "Not connected")), w)
|}.

Definition bridgeOptions : KotaeteOptions Z := {|
  onQuizStart := Some (fun _ w => w);
  onQuizEnd := Some (fun _ w => w)
|}.

(** [new Kotaete(sender, options)] at time [0]. *)
Definition newKotaete (s : MessageSender Z) (o : KotaeteOptions Z) : Config Z :=
  {| this := {| sender := s; currentQuiz := None; options := o |};
     world := 0%Z; calls := [] |}.

Definition aKey : MessageKey.t := MessageKey.mk (js "3EB0ABCDEF") (js "G1").

(** The calls made by [checkAnswer(G1, candidate, aKey)] on a fresh bridge
    after [startQuiz(G1, Q, answer)]. *)
Definition reactionTo (answer candidate : jsstring) : list Call :=
  let c0 := newKotaete okSender bridgeOptions in
  let c1 := snd (startQuiz (js "G1") (js "Q") answer None c0) in
  let c2 := snd (checkAnswer (js "G1") candidate aKey c1) in
  drop (length (calls c1)) (calls c2).

(** ** Identity resolution and the mention filter (whatsapp.ts) *)

Definition isDigit (c : N) : bool := ((48 <=? c) && (c <=? 57))%N.

(** [String.prototype.endsWith] *)
Definition endsWith (s p : jsstring) : bool := startsWith (rev s) (rev p).

Definition S_WHATSAPP_NET : jsstring := js "@s.whatsapp.net".

(** [\d*@s\.whatsapp\.net$] matched against the whole of [s]. *)
Fixpoint digitsThenHost (s : jsstring) : bool :=
  bool_decide (s = S_WHATSAPP_NET) ||
  match s with
  | c :: s' => isDigit c && digitsThenHost s'
  | [] => false
  end.

(** [/:\d+@s\.whatsapp\.net$/] matched at the start of [s]. *)
Definition deviceSuffixAt (s : jsstring) : bool :=
  match s with
  | c :: d :: s' => (c =? 58)%N && isDigit d && digitsThenHost s'
  | _ => false
  end.

(** [s.replace(/:\d+@s\.whatsapp\.net$/, '')]: the leftmost match is
    removed; it reaches the end of the string. *)
Fixpoint replaceDeviceSuffix (s : jsstring) : jsstring :=
  if deviceSuffixAt s then []
  else match s with
       | [] => []
       | c :: s' => c :: replaceDeviceSuffix s'
       end.

(** [s.replace(pattern, '')] with a string pattern: the first occurrence is
    removed. *)
Fixpoint replaceFirst (pattern s : jsstring) : jsstring :=
  if startsWith s pattern then drop (length pattern) s
  else match s with
       | [] => []
       | c :: s' => c :: replaceFirst pattern s'
       end.

(** What the resolver asks of its collaborators, in order: each entry into
    [resolveAndSanitizePhoneNumber], and each directory lookup
    [lidMapping.getPNForLID]. *)
Inductive ResolverCall :=
| Resolve (jid : jsstring)
| GetPNForLID (lid : jsstring).

(** A computation together with the resolver calls it made. *)
Definition Traced (A : Type) : Type := A * list ResolverCall.

#[global] Instance Traced_ret : MRet Traced := fun A a => (a, []).

#[global] Instance Traced_bind : MBind Traced :=
  fun A B k m => let (a, t1) := m in let (b, t2) := k a in (b, t1 ++ t2).

Definition trace (e : ResolverCall) : Traced unit := (tt, [e]).

Section Resolver.
(** [this.sock?.signalRepository?.lidMapping]: absent, or a directory whose
    [getPNForLID] answers a phone-number address or [null]. *)
Variable lidMapping : option (jsstring -> option jsstring).

Definition resolveAndSanitizePhoneNumber (jid : jsstring) : Traced jsstring :=
  trace (Resolve jid);;
  resolved ←
    (if endsWith jid (js "@lid") then
       match lidMapping with
       | Some getPNForLID =>
           trace (GetPNForLID jid);;
           match getPNForLID jid with
           | Some (c :: pn) => mret (c :: pn)
           | Some [] | None => mret jid
           end
       | None => mret jid
       end
     else mret jid);
  mret (replaceFirst S_WHATSAPP_NET (replaceDeviceSuffix resolved)).

(** The loop of [isUserMentioned], lines 197-200. *)
Fixpoint mentionLoop (userPn : jsstring) (mentions : list jsstring) : Traced bool :=
  match mentions with
  | [] => mret false
  | mention :: rest =>
      mentionPn ← resolveAndSanitizePhoneNumber mention;
      if bool_decide (mentionPn = userPn) then mret true
      else mentionLoop userPn rest
  end.

Definition isUserMentioned (mentions : list jsstring) (userJid : jsstring)
  : Traced bool :=
  userPn ← resolveAndSanitizePhoneNumber userJid;
  mentionLoop userPn mentions.
End Resolver.

(** ** Auxiliary definitions of the proofs *)

(** An array of [rows] rows of [cols] cells each. *)
Definition table_shape (rows cols : nat) (dp : list (list nat)) : Prop :=
  length dp = rows /\ Forall (fun row => length row = cols) dp.

(** The cells already holding their final value while the inner loop is at
    column [l] of row [k]. *)
Definition filled (str1 str2 : jsstring) (k l : nat) (dp : list (list nat)) : Prop :=
  table_shape (length str1 + 1) (length str2 + 1) dp /\
  forall i j, i <= length str1 -> j <= length str2 ->
    i = 0 \/ j = 0 \/ i < k \/ (i = k /\ j < l) ->
    tget dp i j = lev_rec str1 str2 i j.

(** "Digits only", the canonical form of an address. *)
Definition digitsOnly (s : jsstring) : bool := forallb isDigit s.

(** The mentions [isUserMentioned] gets to resolve: those up to and
    including the first that is the user. *)
Fixpoint examined (isUser : jsstring -> bool) (mentions : list jsstring)
  : list jsstring :=
  match mentions with
  | [] => []
  | mention :: rest =>
      mention :: (if isUser mention then [] else examined isUser rest)
  end.

(** A directory that knows one linked identity. *)
Definition aDirectory (lid : jsstring) : option jsstring :=
  if bool_decide (lid = js "77001122@lid")
  then Some (js "628111222333:12@s.whatsapp.net")
  else None.

(** The bridge after [startQuiz(G1, Q, Paris)], and the session it holds. *)
Definition parisQuiz : Config Z :=
  snd (startQuiz (js "G1") (js "Q") (js "Paris") None
         (newKotaete okSender bridgeOptions)).

Definition parisSession : QuizState.t :=
  QuizState.mk true (js "Q") (js "paris") 0%Z (js "G1") None.

(** Run the primitive steps of a method body. *)
Ltac run :=
  cbv [mbind M_bind mret M_ret throw now get_currentQuiz set_currentQuiz
       sender_sendMessage sender_sendReact options_onQuizStart
       options_onQuizEnd];
  cbn [this world calls sender currentQuiz options fst snd].

(** * The rest of the bridge *)

(** ** Alignments of two strings *)

(** An alignment of [a] with [b] and its cost: equal characters are kept for
    free; a substitution, a deletion from [a] and an insertion into [a] cost
    one each. *)
Inductive Edits : jsstring -> jsstring -> nat -> Prop :=
| edits_nil : Edits [] [] 0
| edits_keep x a b n : Edits a b n -> Edits (x :: a) (x :: b) n
| edits_substitute x y a b n : Edits a b n -> Edits (x :: a) (y :: b) (S n)
| edits_delete x a b n : Edits a b n -> Edits (x :: a) b (S n)
| edits_insert y a b n : Edits a b n -> Edits a (y :: b) (S n).

(** The same alignments read from the end of the strings, the direction in
    which the table is filled. *)
Inductive EditsR : jsstring -> jsstring -> nat -> Prop :=
| editsR_nil : EditsR [] [] 0
| editsR_keep x a b n : EditsR a b n -> EditsR (a ++ [x]) (b ++ [x]) n
| editsR_substitute x y a b n : EditsR a b n -> EditsR (a ++ [x]) (b ++ [y]) (S n)
| editsR_delete x a b n : EditsR a b n -> EditsR (a ++ [x]) b (S n)
| editsR_insert y a b n : EditsR a b n -> EditsR a (b ++ [y]) (S n).

(** ** Requests to the engine over its lifetime *)

Inductive Request :=
| StartQuiz (chatId question correctAnswer : jsstring)
    (replyToMessageId : option jsstring)
| EndQuiz (reason : EndReason)
| CheckAnswer (chatId messageContent : jsstring) (messageKey : MessageKey.t).

Section Lifetime.
Context {World : Type} {RT : Runtime World}.

Definition serve (r : Request) : M World unit :=
  match r with
  | StartQuiz chatId question correctAnswer replyToMessageId =>
      startQuiz chatId question correctAnswer replyToMessageId
  | EndQuiz reason => endQuiz reason
  | CheckAnswer chatId messageContent messageKey =>
      checkAnswer chatId messageContent messageKey
  end.

(** One request after the other; a request that throws leaves the
    configuration it reached to the next one. *)
Fixpoint serveAll (rs : list Request) (c : Config World) : Config World :=
  match rs with
  | [] => c
  | r :: rs' => serveAll rs' (snd (serve r c))
  end.

(** What every session held by the engine looks like. *)
Definition session_wf (c : Config World) : Prop :=
  forall quiz, currentQuiz (this c) = Some quiz ->
    QuizState.active quiz = true /\
    exists answer, QuizState.correctAnswer quiz = normalize answer.
End Lifetime.


(** Case analysis on the outcome of every send in the goal. *)
Ltac case_sends :=
  repeat match goal with
  | |- context [sendMessage ?s ?a ?b ?w] =>
      let H := fresh "Hsend" in
      destruct (sendMessage s a b w) as [[?|[]] ?] eqn:H;
      cbn [this world calls sender currentQuiz options fst snd]
  | |- context [sendReact ?s ?a ?b ?k ?w] =>
      let H := fresh "Hreact" in
      destruct (sendReact s a b k w) as [[?|[]] ?] eqn:H;
      cbn [this world calls sender currentQuiz options fst snd]
  end.

(** ** Messages of the transport, as far as the bridge reads them

    The properties the two [extractMessageContent] and the mention check
    look at; each is a string, an object or missing. *)

Record ContextInfo := { mentionedJid : option (list jsstring) }.

Record ExtendedTextMessage := {
  text : option jsstring;
  contextInfo : option ContextInfo
}.

(** An image, video or document message. *)
Record CaptionedMessage := { caption : option jsstring }.

Module Message.
Record t := mk {
  conversation : option jsstring;
  extendedTextMessage : option ExtendedTextMessage;
  imageMessage : option CaptionedMessage;
  videoMessage : option CaptionedMessage;
  documentMessage : option CaptionedMessage;
  audioMessage : option unit
}.
End Message.

(** A string-valued property used as a condition: absent, [null] and the
    empty string are falsy. *)
Definition truthy (s : option jsstring) : bool :=
  match s with
  | Some (_ :: _) => true
  | _ => false
  end.

(** [Kotaete.extractMessageContent] (static). *)
Definition extractMessageContent (message : option Message.t) : option jsstring :=
  match message with
  | None => None
  | Some message =>
      if truthy (Message.conversation message) then
        Message.conversation message
      else if truthy (Message.extendedTextMessage message ≫= text) then
        Message.extendedTextMessage message ≫= text
      else if truthy (Message.imageMessage message ≫= caption) then
        Message.imageMessage message ≫= caption
      else if truthy (Message.videoMessage message ≫= caption) then
        Message.videoMessage message ≫= caption
      else if truthy (Message.documentMessage message ≫= caption) then
        Message.documentMessage message ≫= caption
      else None
  end.

(** [RawMessage] of types.ts. *)
Module RawKey.
Record t := mk {
  id : jsstring;
  remoteJid : jsstring;
  remoteJidAlt : option jsstring;
  fromMe : bool
}.
End RawKey.

Module RawMessage.
Record t := mk {
  message : option Message.t;
  key : RawKey.t;
  messageTimestamp : Z
}.
End RawMessage.

(** ** The bridge server with the quiz engine (kotaete.ts, [BridgeServer]) *)

(** A command off the control channel, with the properties the handlers
    read; they are strings ([replyToMessageId] may be missing). *)
Module Command.
Record t := mk {
  type : jsstring;
  chatId : jsstring;
  question : jsstring;
  answer : jsstring;
  replyToMessageId : option jsstring;
  to : jsstring;
  text : jsstring
}.
End Command.

(** What [handleCommand] sends back on the socket of the command, before
    [JSON.stringify]. *)
Inductive Reply :=
| reply_quiz_started (success : bool)
| reply_error (error : jsstring)
| reply_quiz_ended (reason : EndReason)
| reply_quiz_status (active : bool) (quiz : option QuizState.t).

(** [String(error)] for an [Error] object. *)
Definition String_of_error (e : exn) : jsstring :=
  match e with
  | Error [] => js "Error"
  | Error message => js "Error: " ++ message
  end.

(** The server: its engine ([null] until [start] has run), the world, the
    calls the engine made, and the replies written to command sockets. *)
Record Bridge (World : Type) := {
  kotaete : option (Kotaete World);
  outside : World;
  made : list Call;
  sent : list Reply
}.
Arguments kotaete {World}.
Arguments outside {World}.
Arguments made {World}.
Arguments sent {World}.

Definition B (World A : Type) : Type := Bridge World -> (exn + A) * Bridge World.

Section BridgeServer.
Context {World : Type} {RT : Runtime World}.

(** A method of the engine [k] run inside the server. *)
Definition onKotaete {A} (k : Kotaete World) (m : M World A) : B World A :=
  fun b =>
    let (r, c) := m {| this := k; world := outside b; calls := made b |} in
    (r, {| kotaete := Some (this c); outside := world c; made := calls c;
           sent := sent b |}).

(** [ws.send(JSON.stringify(reply))] on the socket the command came from,
    which is open: the send does not throw. *)
Definition ws_send (reply : Reply) : B World unit :=
  fun b =>
    (inr tt, {| kotaete := kotaete b; outside := outside b; made := made b;
                sent := sent b ++ [reply] |}).

(** [super.handleCommand], the base server's handling of other commands. *)
Variable super_handleCommand : Command.t -> B World unit.

Definition handleCommand (cmd : Command.t) : B World unit :=
  fun b =>
    match kotaete b with
    | Some k =>
        if bool_decide (Command.type cmd = js "quiz_start") then
          match onKotaete k
                  (startQuiz (Command.chatId cmd) (Command.question cmd)
                     (Command.answer cmd) (Command.replyToMessageId cmd)) b with
          | (inr _, b') => ws_send (reply_quiz_started true) b'
          | (inl error, b') => ws_send (reply_error (String_of_error error)) b'
          end
        else if bool_decide (Command.type cmd = js "quiz_end") then
          match onKotaete k (endQuiz cancelled) b with
          | (inr _, b') => ws_send (reply_quiz_ended cancelled) b'
          | (inl error, b') => (inl error, b')
          end
        else if bool_decide (Command.type cmd = js "quiz_status") then
          let c := {| this := k; world := outside b; calls := made b |} in
          let quiz := getQuiz c in
          ws_send (reply_quiz_status (isQuizActive c) quiz) b
        else super_handleCommand cmd b
    | None => super_handleCommand cmd b
    end.

Definition handleIgnoredGroupMessage (msg : RawMessage.t) : B World unit :=
  fun b =>
    match kotaete b with
    | None => (inr tt, b)
    | Some k =>
        let content := extractMessageContent (RawMessage.message msg) in
        if truthy content then
          match content with
          | Some content =>
              onKotaete k
                (checkAnswer (RawKey.remoteJid (RawMessage.key msg)) content
                   (MessageKey.mk (RawKey.id (RawMessage.key msg))
                                  (RawKey.remoteJid (RawMessage.key msg)))) b
          | None => (inr tt, b)
          end
        else (inr tt, b)
    end.
End BridgeServer.

(** ** The WhatsApp client (whatsapp.ts) *)

(** The key of an inbound message as the transport delivers it: every
    property may be missing. *)
Module WAMessageKey.
Record t := mk {
  id : option jsstring;
  remoteJid : option jsstring;
  remoteJidAlt : option jsstring;
  fromMe : bool
}.
End WAMessageKey.

Module WAMessage.
Record t := mk {
  key : WAMessageKey.t;
  message : option Message.t;
  messageTimestamp : Z
}.
End WAMessage.

(** [InboundMessage] of types.ts. *)
Module InboundMessage.
Record t := mk {
  id : jsstring;
  sender : jsstring;
  pn : jsstring;
  content : jsstring;
  timestamp : Z;
  isGroup : bool
}.
End InboundMessage.

(** What [sock.sendMessage] is given to send. *)
Inductive AnyMessageContent :=
| TextContent (text : jsstring)
| ReactContent (text : jsstring) (key : MessageKey.t).

(** The socket, as far as sending goes. *)
Record WASocket (World : Type) := {
  sock_sendMessage :
    jsstring -> AnyMessageContent -> World -> (exn + unit) * World
}.
Arguments sock_sendMessage {World}.

(** The handler a message is handed to. *)
Inductive Delivery :=
| OnMessage (msg : InboundMessage.t)
| OnIgnoredGroupMessage (msg : WAMessage.t).

Module WhatsAppClient.

(** [s || ''] *)
Definition orEmpty (s : option jsstring) : jsstring := default [] s.

Definition createInboundMessage (msg : WAMessage.t) (content : jsstring)
    (isGroup : bool) : InboundMessage.t :=
  InboundMessage.mk
    (orEmpty (WAMessageKey.id (WAMessage.key msg)))
    (orEmpty (WAMessageKey.remoteJid (WAMessage.key msg)))
    (orEmpty (WAMessageKey.remoteJidAlt (WAMessage.key msg)))
    content (WAMessage.messageTimestamp msg) isGroup.

Definition extractMessageContent (msg : WAMessage.t) : option jsstring :=
  match WAMessage.message msg with
  | None => None
  | Some message =>
      if truthy (Message.conversation message) then
        Message.conversation message
      else if truthy (Message.extendedTextMessage message ≫= text) then
        Message.extendedTextMessage message ≫= text
      else
        match Message.imageMessage message ≫= caption with
        | Some (c :: s) => Some (js "[Image] " ++ c :: s)
        | _ =>
        match Message.videoMessage message ≫= caption with
        | Some (c :: s) => Some (js "[Video] " ++ c :: s)
        | _ =>
        match Message.documentMessage message ≫= caption with
        | Some (c :: s) => Some (js "[Document] " ++ c :: s)
        | _ =>
        match Message.audioMessage message with
        | Some _ => Some (js "[Voice Message]")
        | None => None
        end end end end
  end.

Section Client.
Context {World : Type}.

(** [this.sock]: [null] until connected and after [disconnect]. *)
Variable sock : option (WASocket World).

Definition sendMessage (to text : jsstring) : World -> (exn + unit) * World :=
  match sock with
  | None => fun w => (inl (Error (js "Not connected")), w)
  | Some s => sock_sendMessage s to (TextContent text)
  end.

Definition sendReact (to emoji : jsstring) (messageKey : MessageKey.t)
  : World -> (exn + unit) * World :=
  match sock with
  | None => fun w => (inl (Error (js "Not connected")), w)
  | Some s => sock_sendMessage s to (ReactContent emoji messageKey)
  end.
End Client.

(** The handlers called for one message: none or one. *)
Definition deliver (ds : list Delivery) : Traced (list Delivery) := mret ds.

Section Upsert.
(** [lidMapping] of the socket, [this.sock?.user?.id], and whether
    [options.onIgnoredGroupMessage] is set. *)
Variable lidMapping : option (jsstring -> option jsstring).
Variable userId : option jsstring.
Variable hasOnIgnoredGroupMessage : bool.

(** The body of the loop over the messages of a batch, lines 100-130: the
    handler called for [msg], if any. *)
Definition route (msg : WAMessage.t) : Traced (list Delivery) :=
  if WAMessageKey.fromMe (WAMessage.key msg) then deliver []
  else if bool_decide (WAMessageKey.remoteJid (WAMessage.key msg)
                       = Some (js "status@broadcast")) then deliver []
  else
    let content := extractMessageContent msg in
    if truthy content then
      match content with
      | None => deliver []
      | Some content =>
          let isGroup :=
            match WAMessageKey.remoteJid (WAMessage.key msg) with
            | Some jid => endsWith jid (js "@g.us")
            | None => false
            end in
          if isGroup then
            let userJid := userId in
            let mentions :=
              default []
                (((WAMessage.message msg ≫= Message.extendedTextMessage)
                    ≫= contextInfo) ≫= mentionedJid) in
            mentioned ← isUserMentioned lidMapping mentions (orEmpty userJid);
            if mentioned : bool then
              deliver [OnMessage (createInboundMessage msg content isGroup)]
            else if hasOnIgnoredGroupMessage then
              deliver [OnIgnoredGroupMessage msg]
            else deliver []
          else deliver [OnMessage (createInboundMessage msg content isGroup)]
      end
    else deliver [].

Fixpoint routeAll (messages : list WAMessage.t) : Traced (list Delivery) :=
  match messages with
  | [] => mret []
  | msg :: rest =>
      here ← route msg;
      later ← routeAll rest;
      mret (here ++ later)
  end.

(** The ['messages.upsert'] handler, lines 96-132. *)
Definition onMessagesUpsert (messages : list WAMessage.t) (type : jsstring)
  : Traced (list Delivery) :=
  if negb (bool_decide (type = js "notify")) then mret []
  else routeAll messages.
End Upsert.
End WhatsAppClient.

(** The sender [createKotaete] gives the engine: the two methods of the
    client [this.wa]. *)
Definition clientSender {World} (sock : option (WASocket World))
  : MessageSender World :=
  {| sendMessage := WhatsAppClient.sendMessage sock;
     sendReact := WhatsAppClient.sendReact sock |}.

(** [isGroup] and [mentions] of the loop body. *)
Definition isGroupMessage (msg : WAMessage.t) : bool :=
  match WAMessageKey.remoteJid (WAMessage.key msg) with
  | Some jid => endsWith jid (js "@g.us")
  | None => false
  end.

Definition mentionsOf (msg : WAMessage.t) : list jsstring :=
  default []
    (((WAMessage.message msg ≫= Message.extendedTextMessage)
        ≫= contextInfo) ≫= mentionedJid).

(** ** Concrete inputs for the further properties *)

(** A transport that delivers reactions but no messages. *)
Definition reactOnlySender : MessageSender Z := {|
  sendMessage := fun _ _ w => (inl (Error (js "Not connected")), w);
  sendReact := fun _ _ _ w => (inr tt, w)
|}.

(** An engine holding the Paris session, on a given sender. *)
Definition parisOn (s : MessageSender Z) : Config Z :=
  {| this := {| sender := s; currentQuiz := Some parisSession;
                options := bridgeOptions |};
     world := 0%Z; calls := [] |}.

(** A started server around an engine, and one before [start]. *)
Definition bridgeOf (k : option (Kotaete Z)) : Bridge Z :=
  {| kotaete := k; outside := 0%Z; made := []; sent := [] |}.

Definition aCommand (type : string) : Command.t :=
  Command.mk (js type) (js "G1") (js "Q") (js "Paris") None [] [].

Definition noSuper (cmd : Command.t) : B Z unit := fun b => (inr tt, b).

Definition textMessage (s : jsstring) : Message.t :=
  Message.mk (Some s) None None None None None.

Definition imageMessageOf (s : jsstring) : Message.t :=
  Message.mk None None (Some {| caption := Some s |}) None None None.

Definition mentioning (s : jsstring) (jids : list jsstring) : Message.t :=
  Message.mk None
    (Some {| text := Some s;
             contextInfo := Some {| mentionedJid := Some jids |} |})
    None None None None.

Definition inbound (jid : string) (m : Message.t) : WAMessage.t :=
  WAMessage.mk (WAMessageKey.mk (Some (js "3EB0")) (Some (js jid)) None false)
    (Some m) 1739520000%Z.

Definition rawFrom (jid : string) (m : Message.t) : RawMessage.t :=
  RawMessage.mk (Some m) (RawKey.mk (js "3EB0") (js jid) None false)
    1739520000%Z.

Definition botJid : jsstring := js "628111222333:12@s.whatsapp.net".

(** * Properties *)

(** ** Loops *)

Lemma for_range_invariant {A} (P : nat -> A -> Prop) body lo len (init : A) :
  P lo init ->
  (forall k x, lo <= k < lo + len -> P k x -> P (S k) (body x k)) ->
  P (lo + len) (for_range lo len body init).
Proof.
  unfold for_range. revert lo init.
  induction len as [|len IH]; intros lo init Hinit Hstep; simpl.
  - by rewrite Nat.add_0_r.
  - replace (lo + S len) with (S lo + len) by lia.
    apply IH.
    + apply Hstep; [lia | done].
    + intros k x Hk. apply Hstep. lia.
Qed.

(** ** The table *)

Lemma table_shape_replicate rows cols :
  table_shape rows cols (replicate rows (replicate cols 0)).
Proof.
  split; [apply length_replicate |].
  apply Forall_replicate, length_replicate.
Qed.

Lemma table_shape_tset rows cols dp i j v :
  table_shape rows cols dp -> table_shape rows cols (tset dp i j v).
Proof.
  intros [Hlen Hrows]. split.
  - unfold tset. by rewrite length_alter.
  - unfold tset. apply Forall_alter; [done |].
    intros row _ Hrow. by rewrite length_insert.
Qed.

Lemma tget_tset_eq rows cols dp i j v :
  table_shape rows cols dp -> i < rows -> j < cols ->
  tget (tset dp i j v) i j = v.
Proof.
  intros [Hlen Hrows] Hi Hj. unfold tget, tset.
  rewrite list_lookup_alter_eq.
  destruct (lookup_lt_is_Some_2 dp i) as [row Hrow]; [lia |].
  rewrite Hrow. simpl.
  rewrite list_lookup_insert_eq; [done |].
  rewrite (Forall_lookup_1 _ _ _ _ Hrows Hrow). done.
Qed.

Lemma tget_tset_ne dp i j v i' j' :
  (i, j) <> (i', j') -> tget (tset dp i j v) i' j' = tget dp i' j'.
Proof.
  intros Hne. unfold tget, tset.
  destruct (decide (i = i')) as [->|Hi].
  - rewrite list_lookup_alter_eq.
    destruct (dp !! i') as [row|]; simpl; [| done].
    rewrite list_lookup_insert_ne; [done | congruence].
  - by rewrite list_lookup_alter_ne.
Qed.

Section LevenshteinFacts.
Variables str1 str2 : jsstring.
Let m := length str1.
Let n := length str2.

Lemma lev_rec_0_r i : lev_rec str1 str2 i 0 = i.
Proof. by destruct i. Qed.

Lemma lev_rec_S_S i j :
  lev_rec str1 str2 (S i) (S j) =
  if bool_decide (str1 !! i = str2 !! j) then lev_rec str1 str2 i j
  else 1 + Nat.min (lev_rec str1 str2 i (S j))
                   (Nat.min (lev_rec str1 str2 (S i) j) (lev_rec str1 str2 i j)).
Proof. reflexivity. Qed.

Lemma filled_first_column :
  let dp := for_range 0 (m + 1) (fun dp i => tset dp i 0 i)
              (replicate (m + 1) (replicate (n + 1) 0)) in
  table_shape (m + 1) (n + 1) dp /\ forall i, i <= m -> tget dp i 0 = i.
Proof.
  intros dp.
  assert (table_shape (m + 1) (n + 1) dp /\ forall i, i < 0 + (m + 1) -> tget dp i 0 = i)
    as [Hs Hc].
  { subst dp.
    apply (for_range_invariant
             (fun k dp => table_shape (m + 1) (n + 1) dp /\
                          forall i, i < k -> tget dp i 0 = i)).
    - split; [apply table_shape_replicate | lia].
    - intros k x Hk [Hs Hc]. split; [by apply table_shape_tset |].
      intros i Hi. destruct (decide (i = k)) as [->|Hne].
      + apply (tget_tset_eq _ _ _ _ _ _ Hs); lia.
      + rewrite tget_tset_ne; [apply Hc; lia | congruence]. }
  split; [done |]. intros i Hi. apply Hc. lia.
Qed.

Lemma filled_borders :
  let dp1 := for_range 0 (m + 1) (fun dp i => tset dp i 0 i)
               (replicate (m + 1) (replicate (n + 1) 0)) in
  let dp2 := for_range 0 (n + 1) (fun dp j => tset dp 0 j j) dp1 in
  filled str1 str2 1 1 dp2.
Proof.
  intros dp1 dp2. destruct filled_first_column as [Hs1 Hc1]. fold dp1 in Hs1, Hc1.
  assert (table_shape (m + 1) (n + 1) dp2 /\
          (forall i, i <= m -> tget dp2 i 0 = i) /\
          (forall j, j < 0 + (n + 1) -> tget dp2 0 j = j)) as (Hs & Hc & Hr).
  { subst dp2.
    apply (for_range_invariant
             (fun k dp => table_shape (m + 1) (n + 1) dp /\
                          (forall i, i <= m -> tget dp i 0 = i) /\
                          (forall j, j < k -> tget dp 0 j = j))).
    - repeat split; [apply Hs1.. | done | lia].
    - intros k x Hk (Hs & Hc & Hr). split; [by apply table_shape_tset |]. split.
      + intros i Hi. destruct (decide ((0, k) = (i, 0))) as [Heq|Hne].
        * inversion Heq; subst. apply (tget_tset_eq _ _ _ _ _ _ Hs); lia.
        * rewrite tget_tset_ne; [by apply Hc | done].
      + intros j Hj. destruct (decide (j = k)) as [->|Hne].
        * apply (tget_tset_eq _ _ _ _ _ _ Hs); lia.
        * rewrite tget_tset_ne; [apply Hr; lia | congruence]. }
  split; [done |].
  intros i j Hi Hj [-> | [-> | [Hlt | [-> Hlt]]]].
  - rewrite Hr; [done | lia].
  - rewrite lev_rec_0_r. by apply Hc.
  - assert (i = 0) as -> by lia. rewrite Hr; [done | lia].
  - assert (j = 0) as -> by lia. rewrite lev_rec_0_r. apply Hc. lia.
Qed.

Lemma filled_lev_cell k l dp :
  1 <= k <= m -> 1 <= l <= n ->
  filled str1 str2 k l dp -> filled str1 str2 k (S l) (lev_cell str1 str2 dp k l).
Proof.
  intros Hk Hl [Hs Hf].
  destruct k as [|k]; [lia |]. destruct l as [|l]; [lia |].
  assert (tget (lev_cell str1 str2 dp (S k) (S l)) (S k) (S l)
          = lev_rec str1 str2 (S k) (S l)) as Hnew.
  { rewrite lev_rec_S_S. unfold lev_cell.
    replace (S k - 1) with k by lia. replace (S l - 1) with l by lia.
    case_bool_decide.
    - rewrite (tget_tset_eq _ _ _ _ _ _ Hs) by lia. apply Hf; lia.
    - rewrite (tget_tset_eq _ _ _ _ _ _ Hs) by lia.
      rewrite !Hf by lia. done. }
  split.
  - unfold lev_cell. case_bool_decide; by apply table_shape_tset.
  - intros i j Hi Hj Hc.
    destruct (decide ((S k, S l) = (i, j))) as [Heq|Hne].
    + inversion Heq; subst. done.
    + assert (tget (lev_cell str1 str2 dp (S k) (S l)) i j = tget dp i j) as ->.
      { unfold lev_cell. case_bool_decide; by rewrite tget_tset_ne. }
      apply Hf; [done.. |].
      destruct Hc as [? | [? | [? | [-> ?]]]]; [by auto.. |].
      right; right; right. split; [done |].
      destruct (decide (j = S l)); [congruence | lia].
Qed.

Lemma filled_row k dp :
  1 <= k <= m ->
  filled str1 str2 k 1 dp ->
  filled str1 str2 (S k) 1
    (for_range 1 n (fun dp j => lev_cell str1 str2 dp k j) dp).
Proof.
  intros Hk Hf.
  assert (filled str1 str2 k (1 + n)
            (for_range 1 n (fun dp j => lev_cell str1 str2 dp k j) dp))
    as [Hs Hf'].
  { apply (for_range_invariant (fun l dp => filled str1 str2 k l dp)); [done |].
    intros l x Hl Hx. apply filled_lev_cell; [done | lia | done]. }
  split; [done |].
  intros i j Hi Hj Hc. apply Hf'; [done.. |]. lia.
Qed.

Lemma lev_table_filled : filled str1 str2 (S m) 1 (lev_table str1 str2).
Proof.
  unfold lev_table. fold m n.
  pose proof filled_borders as Hb. simpl in Hb.
  apply (for_range_invariant (fun k dp => filled str1 str2 k 1 dp) _ 1 m); [done |].
  intros k x Hk Hx. apply filled_row; [lia | done].
Qed.

Lemma lev_table_shape : table_shape (m + 1) (n + 1) (lev_table str1 str2).
Proof. apply lev_table_filled. Qed.

Lemma lev_table_cell i j :
  i <= m -> j <= n -> tget (lev_table str1 str2) i j = lev_rec str1 str2 i j.
Proof. intros Hi Hj. apply lev_table_filled; [done.. |]. lia. Qed.

Lemma levenshteinDistance_rec :
  levenshteinDistance str1 str2 = lev_rec str1 str2 m n.
Proof. unfold levenshteinDistance. by apply lev_table_cell. Qed.
End LevenshteinFacts.

Lemma lev_rec_sym a b : forall s i j, i + j <= s -> lev_rec a b i j = lev_rec b a j i.
Proof.
  induction s as [|s IH]; intros i j Hs.
  - assert (i = 0) as -> by lia. assert (j = 0) as -> by lia. done.
  - destruct i as [|i]; [by rewrite lev_rec_0_r |].
    destruct j as [|j]; [by rewrite lev_rec_0_r |].
    rewrite !lev_rec_S_S.
    rewrite (IH i j), (IH i (S j)), (IH (S i) j) by lia.
    repeat case_bool_decide; try congruence. lia.
Qed.

(** C8. The distance computed by the table of [levenshteinDistance] is the
    same in both directions, for all strings [a] and [b]. *)
Theorem levenshteinDistance_symmetric (a b : jsstring) :
  levenshteinDistance a b = levenshteinDistance b a.
Proof.
  rewrite !levenshteinDistance_rec. by apply (lev_rec_sym a b (length a + length b)).
Qed.

(** ** Substring search *)

Lemma startsWith_spec (s p : jsstring) :
  startsWith s p = true <-> exists post, s = p ++ post.
Proof.
  revert s. induction p as [|x p IH]; intros s; simpl.
  - split; [intros _; by exists s | done].
  - destruct s as [|y s]; [split; [done | by intros [? ?]] |].
    rewrite andb_true_iff, N.eqb_eq, IH. split.
    + intros [-> [post ->]]. by exists post.
    + intros [post Heq]. inversion Heq; subst. split; [done | by exists post].
Qed.

Lemma includes_spec (s p : jsstring) :
  includes s p = true <-> exists pre post, s = pre ++ p ++ post.
Proof.
  induction s as [|y s IH]; simpl.
  - rewrite orb_false_r, startsWith_spec. split.
    + intros [post Heq]. by exists [], post.
    + intros (pre & post & Heq). symmetry in Heq.
      apply app_eq_nil in Heq as [-> Heq]. by exists post.
  - rewrite orb_true_iff, IH, startsWith_spec. split.
    + intros [[post Heq] | (pre & post & ->)].
      * by exists [], post.
      * by exists (y :: pre), post.
    + intros (pre & post & Heq). destruct pre as [|z pre].
      * left. by exists post.
      * right. inversion Heq; subst. by exists pre, post.
Qed.

Section EngineFacts.
Context {World : Type} {RT : Runtime World}.
Implicit Types (c : Config World) (quiz : QuizState.t) (reason : EndReason).

Lemma bind_unfold {A B} (m : M World A) (k : A -> M World B) c :
  (m ≫= k) c =
  match m c with
  | (inl e, c') => (inl e, c')
  | (inr a, c') => k a c'
  end.
Proof. reflexivity. Qed.

(** *** [isCloseMatch] against the two-branch threshold of the specification *)

Lemma isCloseMatch_threshold (x y : jsstring) :
  isCloseMatch x y =
  if length x <=? 10 then levenshteinDistance x y <=? 2
  else levenshteinDistance x y <=? Nat.max 3 (length x / 10).
Proof.
  unfold isCloseMatch.
  destruct (length x <=? 10) eqn:Hlen; simpl.
  - destruct (levenshteinDistance x y <=? 2); [done |].
    apply Nat.leb_le in Hlen.
    destruct (10 <? length x) eqn:Hgt; [apply Nat.ltb_lt in Hgt; lia | done].
  - apply Nat.leb_gt in Hlen.
    destruct (10 <? length x) eqn:Hgt; [done | apply Nat.ltb_ge in Hgt; lia].
Qed.

(** *** [checkAnswer] on an active session of the same chat *)

Lemma checkAnswer_active c quiz content key :
  currentQuiz (this c) = Some quiz ->
  checkAnswer (QuizState.chatId quiz) content key c =
  respond (QuizState.chatId quiz) key
    (matchTier (normalize content) (QuizState.correctAnswer quiz)) c.
Proof.
  intros Hq. unfold checkAnswer. rewrite bind_unfold.
  unfold get_currentQuiz at 1. rewrite Hq.
  rewrite bool_decide_true by done. simpl negb. cbv iota.
  unfold matchTier, normalize.
  case_bool_decide; [done |].
  destruct (includes _ _ || includes _ _); [done |].
  rewrite isCloseMatch_threshold.
  by destruct (if length _ <=? 10 then _ else _).
Qed.

Lemma startQuiz_ok_inv c c1 chatId question answer reply :
  startQuiz chatId question answer reply c = (inr tt, c1) ->
  currentQuiz (this c) = None /\
  exists w1,
    sendMessage (sender (this c)) chatId (quizMessage question) (world c)
      = (inr tt, w1) /\
    let quiz := QuizState.mk true question (normalize answer) (Date_now w1)
                             chatId reply in
    this c1 = {| sender := sender (this c); currentQuiz := Some quiz;
                 options := options (this c) |} /\
    calls c1 = calls c ++ SendMessage chatId (quizMessage question)
                 :: match onQuizStart (options (this c)) with
                    | Some _ => [OnQuizStart quiz]
                    | None => []
                    end.
Proof.
  unfold startQuiz. run.
  destruct (currentQuiz (this c)) as [quiz|] eqn:Hq; [discriminate |].
  destruct (sendMessage _ _ _ _) as [[e|[]] w1] eqn:Hsend; [discriminate |].
  cbn [this world calls sender currentQuiz options].
  intros H. split; [done |]. exists w1. split; [done |].
  destruct (onQuizStart (options (this c))) as [handler|];
    inversion H; subst; cbn [this calls]; rewrite <- ?app_assoc; done.
Qed.

(** *** The tiers of [matchTier], one by one *)

Lemma matchTier_cases (x y : jsstring) :
  let d := levenshteinDistance x y in
  let L := length x in
  let contained :=
    (exists pre post, x = pre ++ y ++ post) \/
    (exists pre post, y = pre ++ x ++ post) in
  let near := (L <= 10 /\ d <= 2) \/ (10 < L /\ d <= Nat.max 3 (L / 10)) in
  (matchTier x y = Exact <-> x = y) /\
  (matchTier x y = Partial <-> x <> y /\ contained) /\
  (matchTier x y = Close <-> x <> y /\ ~ contained /\ near) /\
  (matchTier x y = NoMatch <-> x <> y /\ ~ contained /\ ~ near).
Proof.
  intros d L contained near.
  assert (includes x y || includes y x = true <-> contained) as Hinc.
  { unfold contained. by rewrite orb_true_iff, !includes_spec. }
  assert ((if L <=? 10 then d <=? 2 else d <=? Nat.max 3 (L / 10)) = true
          <-> near) as Hnear.
  { unfold near. destruct (L <=? 10) eqn:HL.
    - apply Nat.leb_le in HL. rewrite Nat.leb_le. lia.
    - apply Nat.leb_gt in HL. rewrite Nat.leb_le. lia. }
  unfold matchTier. fold d L.
  case_bool_decide as Hxy.
  { repeat split; try done; intros [? _]; done. }
  destruct (includes x y || includes y x).
  { assert contained as Hc by (by apply Hinc).
    repeat split; try done; intros (_ & ? & _); done. }
  assert (~ contained) as Hnc by (intros Hc; by apply Hinc in Hc).
  destruct (if L <=? 10 then _ else _).
  { assert near as Hn by (by apply Hnear).
    repeat split; try done; tauto. }
  assert (~ near) as Hnn by (intros Hn; by apply Hnear in Hn).
  repeat split; try done; tauto.
Qed.

(** C1. [classify], the decision [checkAnswer] takes on a candidate after
    [startQuiz] stored the answer: both strings are lower-cased and trimmed;
    the tier is exact iff they are then equal; else partial iff one contains
    the other; else close iff their Levenshtein distance [d] is at most 2 when
    the length [L] of the (normalized) candidate is at most 10, and at most
    [max 3 (L / 10)] when [L] exceeds 10; else none.  [checkAnswer] responds
    to exactly that tier. *)
Theorem checkAnswer_classify c c1 chatId question correct reply candidate key :
  startQuiz chatId question correct reply c = (inr tt, c1) ->
  let x := normalize candidate in
  let y := normalize correct in
  let d := levenshteinDistance x y in
  let L := length x in
  let contained :=
    (exists pre post, x = pre ++ y ++ post) \/
    (exists pre post, y = pre ++ x ++ post) in
  let near := (L <= 10 /\ d <= 2) \/ (10 < L /\ d <= Nat.max 3 (L / 10)) in
  checkAnswer chatId candidate key c1
    = respond chatId key (classify candidate correct) c1 /\
  (classify candidate correct = Exact <-> x = y) /\
  (classify candidate correct = Partial <-> x <> y /\ contained) /\
  (classify candidate correct = Close <-> x <> y /\ ~ contained /\ near) /\
  (classify candidate correct = NoMatch <-> x <> y /\ ~ contained /\ ~ near).
Proof.
  intros Hstart x y d L contained near.
  split; [| apply matchTier_cases].
  apply startQuiz_ok_inv in Hstart as (_ & w1 & _ & Hthis & _).
  assert (currentQuiz (this c1) =
          Some (QuizState.mk true question (normalize correct) (Date_now w1)
                             chatId reply)) as Hq by (by rewrite Hthis).
  apply (checkAnswer_active c1 _ candidate key) in Hq. exact Hq.
Qed.

(** C3. [startQuiz] while a session is active throws "A quiz is already
    active"; the configuration it leaves is the one it found: no call to the
    sender was made and the session keeps every field. *)
Theorem startQuiz_while_active c quiz chatId question answer reply :
  currentQuiz (this c) = Some quiz ->
  startQuiz chatId question answer reply c
    = (inl (Error (js "A quiz is already active")), c) /\
  calls (snd (startQuiz chatId question answer reply c)) = calls c /\
  getQuiz (snd (startQuiz chatId question answer reply c)) = Some quiz.
Proof.
  intros Hq.
  assert (startQuiz chatId question answer reply c
          = (inl (Error (js "A quiz is already active")), c)) as Heq.
  { unfold startQuiz. run. by rewrite Hq. }
  rewrite Heq. by repeat split.
Qed.

(** C4. After a successful [startQuiz], a [checkAnswer] in the same chat
    whose content normalizes to the normalized answer calls, in this order,
    [sendReact] with the check mark, [sendMessage] with the confirmation, and
    the end notification with reason [answered]; the engine is idle after. *)
Theorem checkAnswer_exact_ends_quiz c c1 chatId question answer reply
    content key w2 w3 handler :
  startQuiz chatId question answer reply c = (inr tt, c1) ->
  normalize content = normalize answer ->
  sendReact (sender (this c1)) chatId CHECK_MARK key (world c1) = (inr tt, w2) ->
  sendMessage (sender (this c1)) chatId (CHECK_MARK ++ js " Correct!") w2
    = (inr tt, w3) ->
  onQuizEnd (options (this c1)) = Some handler ->
  exists c2,
    checkAnswer chatId content key c1 = (inr tt, c2) /\
    calls c2 = calls c1 ++ [SendReact chatId CHECK_MARK key;
                            SendMessage chatId (CHECK_MARK ++ js " Correct!");
                            OnQuizEnd answered] /\
    world c2 = handler answered w3 /\
    isQuizActive c2 = false.
Proof.
  intros Hstart Hnorm Hreact Hmsg Hend.
  pose proof Hstart as Hinv.
  apply startQuiz_ok_inv in Hinv as (_ & w1 & _ & Hthis & _).
  assert (currentQuiz (this c1) =
          Some (QuizState.mk true question (normalize answer) (Date_now w1)
                             chatId reply)) as Hq by (by rewrite Hthis).
  pose proof (checkAnswer_active c1 _ content key Hq) as Hcheck.
  cbn [QuizState.chatId QuizState.correctAnswer] in Hcheck.
  rewrite Hcheck. unfold matchTier. rewrite bool_decide_true by done.
  unfold respond, endQuiz. run.
  rewrite Hreact. cbn [this world calls sender currentQuiz options].
  rewrite Hmsg. cbn [this world calls sender currentQuiz options].
  rewrite Hq. cbn [this world calls sender currentQuiz options].
  rewrite Hend.
  eexists. split; [reflexivity |].
  cbn [this world calls currentQuiz]. unfold isQuizActive. cbn [this currentQuiz].
  repeat split. by rewrite <- !app_assoc.
Qed.

(** C6. [checkAnswer] while no quiz is active, or for another chat than the
    session's, returns normally and leaves the configuration as it was: no
    send, no reaction, no notification, no change of state. *)
Theorem checkAnswer_ignored c chatId content key :
  currentQuiz (this c) = None \/
  (exists quiz, currentQuiz (this c) = Some quiz /\ QuizState.chatId quiz <> chatId) ->
  checkAnswer chatId content key c = (inr tt, c).
Proof.
  intros [Hq | (quiz & Hq & Hne)]; unfold checkAnswer; run; rewrite Hq; [done |].
  by rewrite bool_decide_false.
Qed.

(** C7. [endQuiz reason], for each of the three reasons, on an active session
    clears it and calls the end notification once, with that reason; on an
    idle engine it changes nothing and notifies nobody. *)
Theorem endQuiz_clears_and_notifies c reason :
  (forall quiz handler,
     currentQuiz (this c) = Some quiz ->
     onQuizEnd (options (this c)) = Some handler ->
     exists c',
       endQuiz reason c = (inr tt, c') /\
       currentQuiz (this c') = None /\
       isQuizActive c' = false /\
       calls c' = calls c ++ [OnQuizEnd reason] /\
       world c' = handler reason (world c)) /\
  (currentQuiz (this c) = None -> endQuiz reason c = (inr tt, c)).
Proof.
  split.
  - intros quiz handler Hq Hend. unfold endQuiz. run. rewrite Hq, Hend.
    eexists. split; [reflexivity |]. by repeat split.
  - intros Hq. unfold endQuiz. run. by rewrite Hq.
Qed.

(** Without an [onQuizEnd] callback the session is cleared and nothing is
    called. *)
Lemma endQuiz_without_listener c quiz reason :
  currentQuiz (this c) = Some quiz ->
  onQuizEnd (options (this c)) = None ->
  exists c',
    endQuiz reason c = (inr tt, c') /\
    currentQuiz (this c') = None /\ calls c' = calls c /\ world c' = world c.
Proof.
  intros Hq Hend. unfold endQuiz. run. rewrite Hq, Hend.
  eexists. split; [reflexivity |]. by repeat split.
Qed.

(** C10. When the [sendMessage] of [startQuiz] throws on an idle engine, the
    same error leaves [startQuiz]; no session exists afterwards and the only
    call made is the failed send: the start notification is not called. *)
Theorem startQuiz_send_failure c chatId question answer reply e w' :
  currentQuiz (this c) = None ->
  sendMessage (sender (this c)) chatId (quizMessage question) (world c)
    = (inl e, w') ->
  exists c',
    startQuiz chatId question answer reply c = (inl e, c') /\
    this c' = this c /\
    getQuiz c' = None /\
    isQuizActive c' = false /\
    calls c' = calls c ++ [SendMessage chatId (quizMessage question)].
Proof.
  intros Hq Hsend. unfold startQuiz. run. rewrite Hq, Hsend.
  eexists. split; [reflexivity |].
  unfold getQuiz, isQuizActive. cbn [this calls]. by rewrite Hq.
Qed.
End EngineFacts.

(** ** Suffixes *)

Lemma endsWith_spec (s p : jsstring) :
  endsWith s p = true <-> exists pre, s = pre ++ p.
Proof.
  unfold endsWith. rewrite startsWith_spec. split.
  - intros [post Heq]. exists (rev post).
    rewrite <- (rev_involutive s), Heq, rev_app_distr, rev_involutive. done.
  - intros [pre ->]. exists (rev pre). apply rev_app_distr.
Qed.

Lemma rev_host : rev S_WHATSAPP_NET
  = [116; 101; 110; 46; 112; 112; 97; 115; 116; 97; 104; 119; 46; 115; 64]%N.
Proof. reflexivity. Qed.

Lemma rev_lid : rev (js "@lid") = [100; 105; 108; 64]%N.
Proof. reflexivity. Qed.

Lemma host_unfold : S_WHATSAPP_NET
  = [64; 115; 46; 119; 104; 97; 116; 115; 97; 112; 112; 46; 110; 101; 116]%N.
Proof. reflexivity. Qed.

Lemma isDigit_range d : isDigit d = true -> (48 <= d <= 57)%N.
Proof. unfold isDigit. rewrite andb_true_iff, !N.leb_le. done. Qed.

Lemma endsWith_host_not_lid s : endsWith (s ++ S_WHATSAPP_NET) (js "@lid") = false.
Proof. unfold endsWith. by rewrite rev_app_distr, rev_host, rev_lid. Qed.

(** ** The two replacements on a phone-number address *)

Lemma startsWith_digit_host d s :
  isDigit d = true -> startsWith (d :: s) S_WHATSAPP_NET = false.
Proof.
  intros Hd%isDigit_range. rewrite host_unfold. cbn [startsWith].
  destruct (N.eqb_spec 64 d); [lia | done].
Qed.

Lemma deviceSuffixAt_digit d s : isDigit d = true -> deviceSuffixAt (d :: s) = false.
Proof.
  intros Hd%isDigit_range. unfold deviceSuffixAt. destruct s; [done |].
  destruct (N.eqb_spec d 58); [lia | done].
Qed.

Lemma digitsThenHost_digits dev :
  digitsOnly dev = true -> digitsThenHost (dev ++ S_WHATSAPP_NET) = true.
Proof.
  induction dev as [|d dev IH]; [done |]. simpl.
  intros [Hd Hdev]%andb_true_iff. rewrite Hd, IH by done. apply orb_true_r.
Qed.

Lemma replaceDeviceSuffix_phone ds :
  digitsOnly ds = true ->
  replaceDeviceSuffix (ds ++ S_WHATSAPP_NET) = ds ++ S_WHATSAPP_NET.
Proof.
  induction ds as [|d ds IH]; [done |].
  intros [Hd Hds]%andb_true_iff.
  change ((d :: ds) ++ S_WHATSAPP_NET) with (d :: (ds ++ S_WHATSAPP_NET)).
  cbn [replaceDeviceSuffix]. rewrite deviceSuffixAt_digit by done.
  by rewrite IH.
Qed.

Lemma replaceDeviceSuffix_device ds d dev :
  digitsOnly ds = true -> isDigit d = true -> digitsOnly dev = true ->
  replaceDeviceSuffix (ds ++ 58%N :: d :: dev ++ S_WHATSAPP_NET) = ds.
Proof.
  intros Hds Hd Hdev. induction ds as [|x ds IH].
  - cbn [app replaceDeviceSuffix deviceSuffixAt].
    by rewrite Hd, digitsThenHost_digits.
  - apply andb_true_iff in Hds as [Hx Hds].
    change ((x :: ds) ++ ?t) with (x :: (ds ++ t)).
    cbn [replaceDeviceSuffix]. rewrite deviceSuffixAt_digit by done.
    by rewrite IH.
Qed.

Lemma replaceFirst_host_phone ds :
  digitsOnly ds = true -> replaceFirst S_WHATSAPP_NET (ds ++ S_WHATSAPP_NET) = ds.
Proof.
  induction ds as [|d ds IH]; [done |].
  intros [Hd Hds]%andb_true_iff.
  change ((d :: ds) ++ S_WHATSAPP_NET) with (d :: (ds ++ S_WHATSAPP_NET)).
  cbn [replaceFirst]. rewrite startsWith_digit_host by done. by rewrite IH.
Qed.

Lemma replaceFirst_host_digits ds :
  digitsOnly ds = true -> replaceFirst S_WHATSAPP_NET ds = ds.
Proof.
  induction ds as [|d ds IH]; [done |].
  intros [Hd Hds]%andb_true_iff.
  cbn [replaceFirst]. rewrite startsWith_digit_host by done. by rewrite IH.
Qed.

(** ** The replacements on an address that ends in [@lid] *)

Lemma digitsThenHost_last s : digitsThenHost s = true -> last s = Some 116%N.
Proof.
  induction s as [|c s IH]; cbn [digitsThenHost].
  - intros [Heq%bool_decide_eq_true | ?]%orb_true_iff; done.
  - intros [Heq%bool_decide_eq_true | [_ Hs]%andb_true_iff]%orb_true_iff.
    + by rewrite Heq.
    + rewrite last_cons, IH by done. done.
Qed.

Lemma deviceSuffixAt_last s : deviceSuffixAt s = true -> last s = Some 116%N.
Proof.
  unfold deviceSuffixAt. destruct s as [|c [|d s]]; [done.. |].
  intros [_ Hs%digitsThenHost_last]%andb_true_iff.
  rewrite !last_cons, Hs. done.
Qed.

Lemma replaceDeviceSuffix_other s :
  last s <> Some 116%N -> replaceDeviceSuffix s = s.
Proof.
  induction s as [|c s IH]; [done |]. intros Hlast.
  cbn [replaceDeviceSuffix].
  destruct (deviceSuffixAt (c :: s)) eqn:Hat;
    [by apply deviceSuffixAt_last in Hat |].
  f_equal. apply IH. intros Hs. apply Hlast. by rewrite last_cons, Hs.
Qed.

Lemma replaceFirst_cases (p s : jsstring) :
  replaceFirst p s = s \/
  exists a b, s = a ++ p ++ b /\ replaceFirst p s = a ++ b.
Proof.
  induction s as [|c s IH].
  - simpl. destruct (startsWith [] p) eqn:Hp; [| by left].
    apply startsWith_spec in Hp as [post Hp]. symmetry in Hp.
    apply app_eq_nil in Hp as [-> ->]. by left.
  - cbn [replaceFirst]. destruct (startsWith (c :: s) p) eqn:Hp.
    + apply startsWith_spec in Hp as [post Hp]. right. exists [], post.
      rewrite Hp at 1 2. by rewrite drop_app_length.
    + destruct IH as [-> | (a & b & Hs & ->)]; [by left |].
      right. exists (c :: a), b. by rewrite Hs.
Qed.

Lemma replaceFirst_host_keeps_lid s :
  endsWith s (js "@lid") = true ->
  endsWith (replaceFirst S_WHATSAPP_NET s) (js "@lid") = true.
Proof.
  intros Hs. destruct (replaceFirst_cases S_WHATSAPP_NET s)
    as [-> | (a & b & Heq & ->)]; [done |].
  subst s. unfold endsWith in *.
  rewrite !rev_app_distr, rev_host, rev_lid in Hs.
  rewrite rev_app_distr, rev_lid.
  destruct (rev b) as [|x [|y [|z [|w rb]]]]; cbn [startsWith app] in Hs |- *;
    repeat (apply andb_true_iff in Hs as [?%N.eqb_eq Hs]);
    subst; try discriminate.
  by rewrite !N.eqb_refl.
Qed.

Lemma endsWith_lid_not_digits s :
  endsWith s (js "@lid") = true -> digitsOnly s = false.
Proof.
  intros [pre ->]%endsWith_spec. unfold digitsOnly.
  rewrite forallb_app. apply andb_false_r.
Qed.

(** ** [resolveAndSanitizePhoneNumber]: result and calls *)

Section ResolverFacts.
Variable lidMapping : option (jsstring -> option jsstring).
Let resolve := resolveAndSanitizePhoneNumber lidMapping.

Lemma resolve_fst jid :
  fst (resolve jid) =
  replaceFirst S_WHATSAPP_NET
    (replaceDeviceSuffix
       (if endsWith jid (js "@lid") then
          match lidMapping with
          | Some getPNForLID =>
              match getPNForLID jid with
              | Some (c :: pn) => c :: pn
              | _ => jid
              end
          | None => jid
          end
        else jid)).
Proof.
  unfold resolve, resolveAndSanitizePhoneNumber.
  destruct (endsWith jid (js "@lid")); [| done].
  destruct lidMapping as [getPNForLID|]; [| done].
  cbv [mbind Traced_bind mret Traced_ret trace].
  by destruct (getPNForLID jid) as [[|c pn]|].
Qed.

Lemma resolve_snd jid :
  snd (resolve jid) =
  Resolve jid ::
    (if endsWith jid (js "@lid") then
       match lidMapping with
       | Some _ => [GetPNForLID jid]
       | None => []
       end
     else []).
Proof.
  unfold resolve, resolveAndSanitizePhoneNumber.
  destruct (endsWith jid (js "@lid")); [| done].
  destruct lidMapping as [getPNForLID|]; [| done].
  cbv [mbind Traced_bind mret Traced_ret trace].
  by destruct (getPNForLID jid) as [[|c pn]|].
Qed.

Lemma mentionLoop_spec userPn mentions :
  let isUser m := bool_decide (fst (resolve m) = userPn) in
  mentionLoop lidMapping userPn mentions =
  (existsb isUser mentions,
   concat (map (fun m => snd (resolve m)) (examined isUser mentions))).
Proof.
  intros isUser. subst isUser resolve.
  induction mentions as [|mention rest IH]; [done |].
  cbn [mentionLoop existsb examined map concat].
  cbv [mbind Traced_bind].
  destruct (resolveAndSanitizePhoneNumber lidMapping mention) as [pn t].
  cbn [fst snd]. case_bool_decide.
  - cbv [mret Traced_ret]. cbn [orb map concat]. done.
  - rewrite IH. cbn [orb map concat]. done.
Qed.

(** C5 (amended). [isUserMentioned] resolves the user's address first and
    once, then the mentions in order up to and including the first whose
    canonical form equals the user's; it answers whether there is such a
    mention.  On an empty list it answers [false] after that one resolution
    of the user's address; no mention is resolved. *)
Theorem isUserMentioned_resolution_order mentions userJid :
  let userPn := fst (resolve userJid) in
  let isUser m := bool_decide (fst (resolve m) = userPn) in
  fst (isUserMentioned lidMapping mentions userJid) = existsb isUser mentions /\
  snd (isUserMentioned lidMapping mentions userJid) =
    snd (resolve userJid)
    ++ concat (map (fun m => snd (resolve m)) (examined isUser mentions)) /\
  (exists lookups, snd (resolve userJid) = Resolve userJid :: lookups /\
                   lookups `sublist_of` [GetPNForLID userJid]) /\
  isUserMentioned lidMapping [] userJid = (false, snd (resolve userJid)).
Proof.
  intros userPn isUser.
  assert (forall ms, isUserMentioned lidMapping ms userJid =
    (existsb isUser ms,
     snd (resolve userJid)
     ++ concat (map (fun m => snd (resolve m)) (examined isUser ms)))) as Hrun.
  { intros ms. unfold isUserMentioned. cbv [mbind Traced_bind].
    subst isUser userPn. unfold resolve.
    destruct (resolveAndSanitizePhoneNumber lidMapping userJid) as [pn t].
    fold resolve. rewrite mentionLoop_spec. done. }
  split; [by rewrite Hrun |]. split; [by rewrite Hrun |]. split.
  - rewrite resolve_snd. eexists. split; [done |].
    destruct (endsWith userJid (js "@lid")); [| apply sublist_nil_l].
    destruct lidMapping; [done | apply sublist_nil_l].
  - rewrite Hrun. cbn. by rewrite app_nil_r.
Qed.

End ResolverFacts.

(** ** The engine on concrete inputs *)

Example lev_london_paris : levenshteinDistance (js "london") (js "paris") = 6.
Proof. reflexivity. Qed.

Example lev_pariss_paris : levenshteinDistance (js "pariss") (js "paris") = 1.
Proof. reflexivity. Qed.

Example lev_kitten_sitting : levenshteinDistance (js "kitten") (js "sitting") = 3.
Proof. reflexivity. Qed.

Example trim_spaces : trim (js "  the answer ") = js "the answer".
Proof. reflexivity. Qed.

Example parisQuiz_session : currentQuiz (this parisQuiz) = Some parisSession.
Proof. reflexivity. Qed.

(** The threshold follows the length of the answer as matched: the twelve
    code units of padding around [xyzdefgh] do not count, so distance 3 is
    measured against 2 and the candidate is no match. *)
Example padding_is_not_length :
  levenshteinDistance (js "xyzdefgh") (js "abcdefgh") = 3 /\
  length (js "      xyzdefgh      ") = 20 /\
  reactionTo (js "abcdefgh") (js "      xyzdefgh      ") = [].
Proof. by vm_compute. Qed.

(** A close match that is neither equal nor contained. *)
Example paxis_is_close :
  reactionTo (js "Paris") (js "Paxis") = [SendReact (js "G1") MAGNIFIER aKey].
Proof. by vm_compute. Qed.

(** C2 (amended). Of the five concrete cases, [Pariss] and [Pari] against
    [Paris] are partial matches (one normalized string contains the other,
    and containment is tested before distance); [The answer is Paris] is
    partial, [Paris] is exact and [London] is no match.  The calls the engine
    makes on each agree. *)
Theorem classify_concrete_cases :
  classify (RT := asciiRuntime) (js "Pariss") (js "Paris") = Partial /\
  classify (RT := asciiRuntime) (js "Pari") (js "Paris") = Partial /\
  classify (RT := asciiRuntime) (js "The answer is Paris") (js "Paris") = Partial /\
  classify (RT := asciiRuntime) (js "Paris") (js "Paris") = Exact /\
  classify (RT := asciiRuntime) (js "London") (js "Paris") = NoMatch /\
  reactionTo (js "Paris") (js "Pariss") = [SendReact (js "G1") SPARKLES aKey] /\
  reactionTo (js "Paris") (js "Pari") = [SendReact (js "G1") SPARKLES aKey] /\
  reactionTo (js "Paris") (js "The answer is Paris")
    = [SendReact (js "G1") SPARKLES aKey] /\
  reactionTo (js "Paris") (js "Paris")
    = [SendReact (js "G1") CHECK_MARK aKey;
       SendMessage (js "G1") (CHECK_MARK ++ js " Correct!");
       OnQuizEnd answered] /\
  reactionTo (js "Paris") (js "London") = [].
Proof. by vm_compute. Qed.

(** [classify("Pariss", "Paris")] is not close: [pariss] contains [paris],
    and the engine reacts with the sparkles of a partial match. *)
Lemma classify_pariss_not_close :
  classify (RT := asciiRuntime) (js "Pariss") (js "Paris") <> Close /\
  includes (js "pariss") (js "paris") = true /\
  reactionTo (js "Paris") (js "Pariss") = [SendReact (js "G1") SPARKLES aKey] /\
  reactionTo (js "Paris") (js "Pariss") <> [SendReact (js "G1") MAGNIFIER aKey].
Proof. by vm_compute. Qed.

(** With an empty mention list the user's own address is still resolved,
    here with a directory lookup. *)
Lemma isUserMentioned_empty_still_resolves :
  isUserMentioned (Some aDirectory) [] (js "77001122@lid")
    = (false, [Resolve (js "77001122@lid"); GetPNForLID (js "77001122@lid")]) /\
  snd (isUserMentioned (Some aDirectory) [] (js "77001122@lid")) <> [].
Proof. by vm_compute. Qed.


(** ** The theorems at concrete inputs *)

Lemma checkAnswer_classify_witness :
  startQuiz (js "G1") (js "Q") (js "Paris") None (newKotaete okSender bridgeOptions)
    = (inr tt, parisQuiz) /\
  checkAnswer (js "G1") (js " Paxis ") aKey parisQuiz
    = respond (js "G1") aKey
        (classify (RT := asciiRuntime) (js " Paxis ") (js "Paris")) parisQuiz.
Proof.
  split; [reflexivity |].
  apply (checkAnswer_classify (newKotaete okSender bridgeOptions) parisQuiz
           (js "G1") (js "Q") (js "Paris") None (js " Paxis ") aKey).
  reflexivity.
Defined.

Lemma startQuiz_while_active_witness :
  currentQuiz (this parisQuiz) = Some parisSession /\
  startQuiz (js "G2") (js "Another") (js "Rome") None parisQuiz
    = (inl (Error (js "A quiz is already active")), parisQuiz).
Proof.
  split; [reflexivity |].
  apply (startQuiz_while_active parisQuiz parisSession
           (js "G2") (js "Another") (js "Rome") None).
  reflexivity.
Defined.

Lemma checkAnswer_exact_ends_quiz_witness :
  let c0 := newKotaete okSender bridgeOptions in
  let c1 := snd (startQuiz (js "G1") (js "Q") (js "4") None c0) in
  startQuiz (js "G1") (js "Q") (js "4") None c0 = (inr tt, c1) /\
  exists c2,
    checkAnswer (js "G1") (js "4") aKey c1 = (inr tt, c2) /\
    calls c2 = calls c1 ++ [SendReact (js "G1") CHECK_MARK aKey;
                            SendMessage (js "G1") (CHECK_MARK ++ js " Correct!");
                            OnQuizEnd answered] /\
    world c2 = 0%Z /\
    isQuizActive c2 = false.
Proof.
  intros c0 c1. split; [reflexivity |].
  apply (checkAnswer_exact_ends_quiz c0 c1 (js "G1") (js "Q") (js "4") None
           (js "4") aKey 0%Z 0%Z (fun _ w => w));
    reflexivity.
Defined.

Lemma checkAnswer_ignored_witness :
  checkAnswer (js "G1") (js "Paris") aKey (newKotaete okSender bridgeOptions)
    = (inr tt, newKotaete okSender bridgeOptions) /\
  checkAnswer (js "G2") (js "Paris") aKey parisQuiz = (inr tt, parisQuiz).
Proof.
  split.
  - apply (checkAnswer_ignored (newKotaete okSender bridgeOptions)).
    left. reflexivity.
  - apply (checkAnswer_ignored parisQuiz).
    right. exists parisSession. split; [reflexivity | discriminate].
Defined.

Lemma endQuiz_clears_and_notifies_witness :
  (exists c',
     endQuiz cancelled parisQuiz = (inr tt, c') /\
     currentQuiz (this c') = None /\
     isQuizActive c' = false /\
     calls c' = calls parisQuiz ++ [OnQuizEnd cancelled] /\
     world c' = 0%Z) /\
  endQuiz timeout (newKotaete okSender bridgeOptions)
    = (inr tt, newKotaete okSender bridgeOptions).
Proof.
  split.
  - apply (proj1 (endQuiz_clears_and_notifies parisQuiz cancelled)
             parisSession (fun _ w => w)); reflexivity.
  - apply (proj2 (endQuiz_clears_and_notifies
                    (newKotaete okSender bridgeOptions) timeout)).
    reflexivity.
Defined.

Lemma startQuiz_send_failure_witness :
  let c := newKotaete downSender bridgeOptions in
  exists c',
    startQuiz (js "G1") (js "Q") (js "Paris") None c
      = (inl (Error (js "Not connected")), c') /\
    this c' = this c /\
    getQuiz c' = None /\
    isQuizActive c' = false /\
    calls c' = calls c ++ [SendMessage (js "G1") (quizMessage (js "Q"))].
Proof.
  intros c.
  apply (startQuiz_send_failure c (js "G1") (js "Q") (js "Paris") None
           (Error (js "Not connected")) 0%Z); reflexivity.
Defined.


(** * Further properties *)

(** ** The distance as a least alignment cost *)

(** ** Alignments from either end *)

Lemma Edits_snoc_keep x a b n : Edits a b n -> Edits (a ++ [x]) (b ++ [x]) n.
Proof. induction 1; simpl; eauto using Edits. Qed.

Lemma Edits_snoc_substitute x y a b n :
  Edits a b n -> Edits (a ++ [x]) (b ++ [y]) (S n).
Proof. induction 1; simpl; eauto using Edits. Qed.

Lemma Edits_snoc_delete x a b n : Edits a b n -> Edits (a ++ [x]) b (S n).
Proof. induction 1; simpl; eauto using Edits. Qed.

Lemma Edits_snoc_insert y a b n : Edits a b n -> Edits a (b ++ [y]) (S n).
Proof. induction 1; simpl; eauto using Edits. Qed.

Lemma EditsR_Edits a b n : EditsR a b n -> Edits a b n.
Proof.
  induction 1; eauto using Edits, Edits_snoc_keep, Edits_snoc_substitute,
    Edits_snoc_delete, Edits_snoc_insert.
Qed.

Lemma EditsR_cons_keep x a b n : EditsR a b n -> EditsR (x :: a) (x :: b) n.
Proof.
  induction 1; rewrite ?app_comm_cons; eauto using EditsR.
  apply (editsR_keep x [] [] 0), editsR_nil.
Qed.

Lemma EditsR_cons_substitute x y a b n :
  EditsR a b n -> EditsR (x :: a) (y :: b) (S n).
Proof.
  induction 1; rewrite ?app_comm_cons; eauto using EditsR.
  apply (editsR_substitute x y [] [] 0), editsR_nil.
Qed.

Lemma EditsR_cons_delete x a b n : EditsR a b n -> EditsR (x :: a) b (S n).
Proof.
  induction 1; rewrite ?app_comm_cons; eauto using EditsR.
  apply (editsR_delete x [] [] 0), editsR_nil.
Qed.

Lemma EditsR_cons_insert y a b n : EditsR a b n -> EditsR a (y :: b) (S n).
Proof.
  induction 1; rewrite ?app_comm_cons; eauto using EditsR.
  apply (editsR_insert y [] [] 0), editsR_nil.
Qed.

Lemma Edits_EditsR a b n : Edits a b n -> EditsR a b n.
Proof.
  induction 1; eauto using EditsR, EditsR_cons_keep, EditsR_cons_substitute,
    EditsR_cons_delete, EditsR_cons_insert.
Qed.

(** ** What alignments there are *)

Lemma Edits_length a b n :
  Edits a b n -> length a <= length b + n /\ length b <= length a + n.
Proof. induction 1; simpl; lia. Qed.

Lemma Edits_zero a b : Edits a b 0 -> a = b.
Proof.
  intros H. remember 0 as n eqn:Hn. induction H; try discriminate; [done |].
  by rewrite IHEdits.
Qed.

Lemma Edits_refl a : Edits a a 0.
Proof. induction a; eauto using Edits. Qed.

Lemma Edits_longest a b : Edits a b (Nat.max (length a) (length b)).
Proof.
  revert b. induction a as [|x a IH]; intros b.
  - induction b as [|y b IHb]; simpl; eauto using Edits.
  - destruct b as [|y b]; simpl.
    + apply edits_delete. specialize (IH []). simpl in IH.
      by rewrite Nat.max_0_r in IH.
    + apply edits_substitute, IH.
Qed.

Lemma Edits_trans a b n :
  Edits a b n -> forall c m, Edits b c m -> exists k, k <= n + m /\ Edits a c k.
Proof.
  induction 1 as [|x a b n H IH|x y a b n H IH|x a b n H IH|y a b n H IH];
    intros c m Hbc.
  - by exists m.
  - remember (x :: b) as l eqn:Hl. revert Hl.
    induction Hbc as [|z b' c m Hbc _|z z' b' c m Hbc _|z b' c m Hbc _
                     |z' b' c m Hbc IHbc]; intros Hl; try discriminate.
    + injection Hl as -> ->. destruct (IH _ _ Hbc) as (k & Hk & Hac).
      exists k. eauto using Edits.
    + injection Hl as -> ->. destruct (IH _ _ Hbc) as (k & Hk & Hac).
      exists (S k). split; [lia | eauto using Edits].
    + injection Hl as -> ->. destruct (IH _ _ Hbc) as (k & Hk & Hac).
      exists (S k). split; [lia | eauto using Edits].
    + destruct (IHbc Hl) as (k & Hk & Hac).
      exists (S k). split; [lia | eauto using Edits].
  - remember (y :: b) as l eqn:Hl. revert Hl.
    induction Hbc as [|z b' c m Hbc _|z z' b' c m Hbc _|z b' c m Hbc _
                     |z' b' c m Hbc IHbc]; intros Hl; try discriminate.
    + injection Hl as -> ->. destruct (IH _ _ Hbc) as (k & Hk & Hac).
      exists (S k). split; [lia | eauto using Edits].
    + injection Hl as -> ->. destruct (IH _ _ Hbc) as (k & Hk & Hac).
      exists (S k). split; [lia | eauto using Edits].
    + injection Hl as -> ->. destruct (IH _ _ Hbc) as (k & Hk & Hac).
      exists (S k). split; [lia | eauto using Edits].
    + destruct (IHbc Hl) as (k & Hk & Hac).
      exists (S k). split; [lia | eauto using Edits].
  - destruct (IH _ _ Hbc) as (k & Hk & Hac).
    exists (S k). split; [lia | eauto using Edits].
  - remember (y :: b) as l eqn:Hl. revert Hl.
    induction Hbc as [|z b' c m Hbc _|z z' b' c m Hbc _|z b' c m Hbc _
                     |z' b' c m Hbc IHbc]; intros Hl; try discriminate.
    + injection Hl as -> ->. destruct (IH _ _ Hbc) as (k & Hk & Hac).
      exists (S k). split; [lia | eauto using Edits].
    + injection Hl as -> ->. destruct (IH _ _ Hbc) as (k & Hk & Hac).
      exists (S k). split; [lia | eauto using Edits].
    + injection Hl as -> ->. destruct (IH _ _ Hbc) as (k & Hk & Hac).
      exists k. split; [lia | done].
    + destruct (IHbc Hl) as (k & Hk & Hac).
      exists (S k). split; [lia | eauto using Edits].
Qed.

(** ** The recurrence and the alignments *)

Lemma lev_rec_prefix a a' b b' :
  forall s i j, i + j <= s ->
    (forall k, k < i -> a !! k = a' !! k) ->
    (forall k, k < j -> b !! k = b' !! k) ->
    lev_rec a b i j = lev_rec a' b' i j.
Proof.
  induction s as [|s IH]; intros i j Hs Ha Hb.
  - assert (i = 0) as -> by lia. assert (j = 0) as -> by lia. done.
  - destruct i as [|i]; [done |]. destruct j as [|j]; [done |].
    rewrite !lev_rec_S_S.
    rewrite (IH i j), (IH i (S j)), (IH (S i) j)
      by (first [lia | intros; apply Ha; lia | intros; apply Hb; lia]).
    by rewrite (Ha i), (Hb j) by lia.
Qed.

Lemma lev_rec_snoc_l a x b i j :
  i <= length a -> lev_rec (a ++ [x]) b i j = lev_rec a b i j.
Proof.
  intros Hi. apply (lev_rec_prefix _ _ _ _ (i + j)); [lia | | done].
  intros k Hk. apply lookup_app_l. lia.
Qed.

Lemma lev_rec_snoc_r a b y i j :
  j <= length b -> lev_rec a (b ++ [y]) i j = lev_rec a b i j.
Proof.
  intros Hj. apply (lev_rec_prefix _ _ _ _ (i + j)); [lia | done |].
  intros k Hk. apply lookup_app_l. lia.
Qed.

(** Moving one cell down or right changes the entry by at most one. *)
Lemma lev_rec_neighbours a b :
  forall s i j, i + j <= s ->
    lev_rec a b (S i) j <= 1 + lev_rec a b i j /\
    lev_rec a b i (S j) <= 1 + lev_rec a b i j /\
    lev_rec a b i j <= 1 + lev_rec a b (S i) j /\
    lev_rec a b i j <= 1 + lev_rec a b i (S j).
Proof.
  induction s as [s IH] using (well_founded_induction lt_wf).
  intros i j Hs.
  assert (forall i' j', i' + j' < i + j ->
    lev_rec a b (S i') j' <= 1 + lev_rec a b i' j' /\
    lev_rec a b i' (S j') <= 1 + lev_rec a b i' j' /\
    lev_rec a b i' j' <= 1 + lev_rec a b (S i') j' /\
    lev_rec a b i' j' <= 1 + lev_rec a b i' (S j')) as Hprev.
  { intros i' j' Hlt. apply (IH (i' + j')); lia. }
  clear IH. repeat split.
  - destruct j as [|j]; [rewrite !lev_rec_0_r; lia |].
    rewrite lev_rec_S_S.
    pose proof (Hprev i j ltac:(lia)) as (_ & _ & _ & Hd).
    case_bool_decide; lia.
  - destruct i as [|i]; [cbn; lia |].
    rewrite lev_rec_S_S.
    pose proof (Hprev i j ltac:(lia)) as (_ & _ & Hc & _).
    case_bool_decide; lia.
  - destruct j as [|j]; [rewrite !lev_rec_0_r; lia |].
    rewrite (lev_rec_S_S a b i j).
    pose proof (Hprev i j ltac:(lia)) as (_ & Hb & Hc & _).
    case_bool_decide; lia.
  - destruct i as [|i]; [cbn; lia |].
    rewrite (lev_rec_S_S a b i j).
    pose proof (Hprev i j ltac:(lia)) as (Ha & _ & _ & Hd).
    case_bool_decide; lia.
Qed.

Lemma lev_rec_least a b n :
  EditsR a b n -> lev_rec a b (length a) (length b) <= n.
Proof.
  induction 1 as [|x a b n H IH|x y a b n H IH|x a b n H IH|y a b n H IH].
  - done.
  - rewrite !length_app, !Nat.add_1_r, lev_rec_S_S.
    rewrite !lookup_app_r, !Nat.sub_diag by lia. rewrite bool_decide_true by done.
    rewrite lev_rec_snoc_l by lia. by rewrite lev_rec_snoc_r by lia.
  - rewrite !length_app, !Nat.add_1_r, lev_rec_S_S.
    assert (lev_rec (a ++ [x]) (b ++ [y]) (length a) (length b)
            = lev_rec a b (length a) (length b)) as ->.
    { rewrite lev_rec_snoc_l by lia. by rewrite lev_rec_snoc_r by lia. }
    case_bool_decide; lia.
  - rewrite length_app, Nat.add_1_r.
    pose proof (lev_rec_neighbours (a ++ [x]) b _ (length a) (length b) (le_n _))
      as (Hd & _).
    rewrite (lev_rec_snoc_l a x b (length a)) in Hd by lia. lia.
  - rewrite length_app, Nat.add_1_r.
    pose proof (lev_rec_neighbours a (b ++ [y]) _ (length a) (length b) (le_n _))
      as (_ & Hr & _).
    rewrite (lev_rec_snoc_r a b y (length a) (length b)) in Hr by lia. lia.
Qed.

Lemma lev_rec_attained a b :
  forall s i j, i + j <= s -> i <= length a -> j <= length b ->
    EditsR (take i a) (take j b) (lev_rec a b i j).
Proof.
  induction s as [s IH] using (well_founded_induction lt_wf).
  intros i j Hs Hi Hj.
  assert (forall i' j', i' + j' < i + j -> i' <= length a -> j' <= length b ->
            EditsR (take i' a) (take j' b) (lev_rec a b i' j')) as Hprev.
  { intros i' j' Hlt. apply (IH (i' + j')); lia. }
  clear IH.
  destruct i as [|i].
  { destruct j as [|j]; [apply editsR_nil |].
    destruct (lookup_lt_is_Some_2 b j) as [y Hy]; [lia |].
    rewrite (take_S_r _ _ _ Hy). change (lev_rec a b 0 (S j)) with (S j).
    apply editsR_insert, (Hprev 0 j); lia. }
  destruct (lookup_lt_is_Some_2 a i) as [x Hx]; [lia |].
  rewrite (take_S_r _ _ _ Hx).
  destruct j as [|j].
  { rewrite lev_rec_0_r. pose proof (Hprev i 0 ltac:(lia) ltac:(lia) ltac:(lia)) as H.
    rewrite lev_rec_0_r in H. by apply editsR_delete. }
  destruct (lookup_lt_is_Some_2 b j) as [y Hy]; [lia |].
  rewrite lev_rec_S_S, Hx, Hy.
  pose proof (Hprev i j ltac:(lia) ltac:(lia) ltac:(lia)) as Hdiag.
  pose proof (Hprev i (S j) ltac:(lia) ltac:(lia) ltac:(lia)) as Hup.
  pose proof (Hprev (S i) j ltac:(lia) ltac:(lia) ltac:(lia)) as Hleft.
  rewrite (take_S_r _ _ _ Hx) in Hleft.
  case_bool_decide as Hxy.
  - injection Hxy as ->. rewrite (take_S_r _ _ _ Hy). by apply editsR_keep.
  - destruct (Nat.min_dec (lev_rec a b i (S j))
                (Nat.min (lev_rec a b (S i) j) (lev_rec a b i j))) as [-> | ->].
    + by apply editsR_delete.
    + rewrite (take_S_r _ _ _ Hy).
      destruct (Nat.min_dec (lev_rec a b (S i) j) (lev_rec a b i j)) as [-> | ->].
      * by apply editsR_insert.
      * by apply editsR_substitute.
Qed.

Lemma levenshtein_alignment (a b : jsstring) :
  Edits a b (levenshteinDistance a b).
Proof.
  rewrite levenshteinDistance_rec. apply EditsR_Edits.
  pose proof (lev_rec_attained a b _ (length a) (length b) (le_n _)
                (le_n _) (le_n _)) as H.
  by rewrite !firstn_all in H.
Qed.

Lemma levenshtein_least (a b : jsstring) n :
  Edits a b n -> levenshteinDistance a b <= n.
Proof.
  intros H. rewrite levenshteinDistance_rec. by apply lev_rec_least, Edits_EditsR.
Qed.

(** X1. [levenshteinDistance a b] is the least cost of an alignment of [a]
    with [b]: some alignment has that cost and none has less. *)
Theorem levenshteinDistance_optimal (a b : jsstring) :
  Edits a b (levenshteinDistance a b) /\
  forall n, Edits a b n -> levenshteinDistance a b <= n.
Proof. split; [apply levenshtein_alignment | apply levenshtein_least]. Qed.

(** X2. The distance is zero exactly between equal strings. *)
Theorem levenshteinDistance_zero_iff (a b : jsstring) :
  levenshteinDistance a b = 0 <-> a = b.
Proof.
  split.
  - intros H0. apply Edits_zero. rewrite <- H0. apply levenshtein_alignment.
  - intros ->. pose proof (levenshtein_least b b 0 (Edits_refl b)). lia.
Qed.

(** X3. The distance is at least the difference of the lengths and at most
    the greater length. *)
Theorem levenshteinDistance_bounds (a b : jsstring) :
  length a - length b <= levenshteinDistance a b /\
  length b - length a <= levenshteinDistance a b /\
  levenshteinDistance a b <= Nat.max (length a) (length b).
Proof.
  pose proof (Edits_length _ _ _ (levenshtein_alignment a b)).
  pose proof (levenshtein_least a b _ (Edits_longest a b)).
  lia.
Qed.

(** X4. Triangle inequality: going through a third string is never
    shorter. *)
Theorem levenshteinDistance_triangle (a b c : jsstring) :
  levenshteinDistance a c <= levenshteinDistance a b + levenshteinDistance b c.
Proof.
  destruct (Edits_trans _ _ _ (levenshtein_alignment a b) _ _
              (levenshtein_alignment b c)) as (k & Hk & Hac).
  pose proof (levenshtein_least a c k Hac). lia.
Qed.

(** ** More on the matcher and the engine *)

Section EngineMore.
Context {World : Type} {RT : Runtime World}.
Implicit Types (c : Config World) (quiz : QuizState.t) (reason : EndReason).

(** X5. Strings that [isCloseMatch] accepts differ in length by no more than
    the threshold of the first one. *)
Theorem isCloseMatch_gap (x y : jsstring) :
  isCloseMatch x y = true ->
  let bound := if length x <=? 10 then 2 else Nat.max 3 (length x / 10) in
  length x <= length y + bound /\ length y <= length x + bound.
Proof.
  rewrite isCloseMatch_threshold. intros Hclose bound.
  assert (levenshteinDistance x y <= bound) as Hd.
  { subst bound. destruct (length x <=? 10); by apply Nat.leb_le. }
  pose proof (levenshtein_alignment x y) as Hal.
  apply Edits_length in Hal. lia.
Qed.

(** X6. The threshold by length of the first string: 2 up to ten code units,
    3 from eleven to thirty-nine, a tenth of the length from forty on. *)
Theorem isCloseMatch_threshold_by_length (x y : jsstring) :
  let d := levenshteinDistance x y in
  (length x <= 10 -> isCloseMatch x y = (d <=? 2)) /\
  (10 < length x /\ length x < 40 -> isCloseMatch x y = (d <=? 3)) /\
  (40 <= length x -> isCloseMatch x y = (d <=? length x / 10)).
Proof.
  intros d. rewrite isCloseMatch_threshold. fold d. split_and!.
  - intros Hlen. apply Nat.leb_le in Hlen. by rewrite Hlen.
  - intros [Hlo Hhi]. apply Nat.leb_gt in Hlo. rewrite Hlo.
    assert (length x / 10 < 4) by (apply Nat.Div0.div_lt_upper_bound; lia).
    by rewrite Nat.max_l by lia.
  - intros Hlen. assert ((length x <=? 10) = false) as -> by (apply Nat.leb_gt; lia).
    assert (4 <= length x / 10) by (apply Nat.div_le_lower_bound; lia).
    by rewrite Nat.max_r by lia.
Qed.

Lemma levenshteinDistance_swap (x y : jsstring) :
  levenshteinDistance x y = levenshteinDistance y x.
Proof.
  rewrite !levenshteinDistance_rec.
  by apply (lev_rec_sym x y (length x + length y)).
Qed.

(** X7. [isCloseMatch] depends on which string comes first: two strings at
    distance 3, one of at most ten code units and one of more, are close
    when the longer one comes first and not close the other way round. *)
Theorem isCloseMatch_not_symmetric (x y : jsstring) :
  length x <= 10 -> 10 < length y -> levenshteinDistance x y = 3 ->
  isCloseMatch x y = false /\ isCloseMatch y x = true.
Proof.
  intros Hx Hy Hd. rewrite !isCloseMatch_threshold.
  rewrite <- (levenshteinDistance_swap x y), Hd.
  apply Nat.leb_le in Hx. rewrite Hx.
  assert ((length y <=? 10) = false) as -> by (apply Nat.leb_gt; lia).
  split; [done |]. apply Nat.leb_le. lia.
Qed.


(** X9. [endQuiz] twice is [endQuiz] once. *)
Theorem endQuiz_idempotent c reason reason' :
  (endQuiz reason ≫= fun _ => endQuiz reason') c = endQuiz reason c.
Proof.
  unfold endQuiz. run.
  destruct (currentQuiz (this c)) as [quiz|] eqn:Hq.
  - destruct (onQuizEnd (options (this c))); done.
  - cbn [this currentQuiz]. by rewrite ?Hq.
Qed.

Lemma checkAnswer_no_session c chatId content key :
  currentQuiz (this c) = None -> checkAnswer chatId content key c = (inr tt, c).
Proof. intros Hq. unfold checkAnswer. run. by rewrite Hq. Qed.

Lemma checkAnswer_other_chat c quiz chatId content key :
  currentQuiz (this c) = Some quiz -> QuizState.chatId quiz <> chatId ->
  checkAnswer chatId content key c = (inr tt, c).
Proof.
  intros Hq Hne. unfold checkAnswer. run. rewrite Hq.
  by rewrite bool_decide_false.
Qed.

Lemma matchTier_Exact (x y : jsstring) : matchTier x y = Exact <-> x = y.
Proof.
  unfold matchTier. case_bool_decide; [done |].
  destruct (includes x y || includes y x); [done |].
  by destruct (if length x <=? 10 then _ else _).
Qed.

Lemma checkAnswer_effect c chatId content key :
  let r := checkAnswer chatId content key c in
  sender (this (snd r)) = sender (this c) /\
  options (this (snd r)) = options (this c) /\
  (exists new, calls (snd r) = calls c ++ new) /\
  (currentQuiz (this (snd r)) = currentQuiz (this c) \/
   currentQuiz (this (snd r)) = None /\ fst r = inr tt /\
   exists quiz, currentQuiz (this c) = Some quiz /\
     QuizState.chatId quiz = chatId /\
     normalize content = QuizState.correctAnswer quiz).
Proof.
  intros r. subst r.
  destruct (currentQuiz (this c)) as [quiz|] eqn:Hq.
  2:{ rewrite checkAnswer_no_session by done. cbn [fst snd]. rewrite Hq.
      split_and!; [done | done | exists []; by rewrite app_nil_r | by left]. }
  destruct (decide (QuizState.chatId quiz = chatId)) as [<- | Hne].
  2:{ rewrite (checkAnswer_other_chat c quiz) by done. cbn [fst snd]. rewrite Hq.
      split_and!; [done | done | exists []; by rewrite app_nil_r | by left]. }
  rewrite (checkAnswer_active c quiz content key Hq).
  destruct (matchTier _ _) eqn:Htier; unfold respond, endQuiz; run.
  - apply matchTier_Exact in Htier.
    case_sends; rewrite ?Hq; cbn [this world calls sender currentQuiz options];
      try destruct (onQuizEnd (options (this c)));
      cbn [this world calls sender currentQuiz options fst snd];
      rewrite ?Hq;
      (split_and!;
       [done | done | rewrite <- ?app_assoc; by eexists
       | first [by left | right; split_and!; [done | done | by exists quiz]]]).
  - case_sends; rewrite ?Hq; (split_and!; [done | done | by eexists | by left]).
  - case_sends; rewrite ?Hq; (split_and!; [done | done | by eexists | by left]).
  - rewrite Hq. split_and!; [done | done | exists []; by rewrite app_nil_r | by left].
Qed.


(** X11. When a send of the exact-match path throws, the error leaves
    [checkAnswer], the session stays, and no end notification is called. *)
Theorem checkAnswer_exact_send_failure c quiz content key e w' :
  currentQuiz (this c) = Some quiz ->
  normalize content = QuizState.correctAnswer quiz ->
  let chat := QuizState.chatId quiz in
  let react := SendReact chat CHECK_MARK key in
  let confirm := SendMessage chat (CHECK_MARK ++ js " Correct!") in
  (sendReact (sender (this c)) chat CHECK_MARK key (world c) = (inl e, w') ->
   checkAnswer chat content key c
     = (inl e, {| this := this c; world := w'; calls := calls c ++ [react] |})) /\
  (forall w2,
     sendReact (sender (this c)) chat CHECK_MARK key (world c) = (inr tt, w2) ->
     sendMessage (sender (this c)) chat (CHECK_MARK ++ js " Correct!") w2
       = (inl e, w') ->
     checkAnswer chat content key c
       = (inl e, {| this := this c; world := w';
                    calls := calls c ++ [react; confirm] |})).
Proof.
  intros Hq Hexact chat react confirm. subst chat.
  rewrite (checkAnswer_active c quiz content key Hq).
  apply matchTier_Exact in Hexact. rewrite Hexact.
  unfold respond. run. split.
  - intros Hreact. by rewrite Hreact.
  - intros w2 Hreact Hsend. rewrite Hreact.
    cbn [this world calls sender currentQuiz options]. rewrite Hsend.
    by rewrite <- app_assoc.
Qed.

(** X12. A candidate that normalizes to the empty string gets the partial
    reaction whatever the (non-empty) answer is, and so does every non-empty
    candidate when the stored answer is empty. *)
Theorem checkAnswer_empty_is_partial c quiz content key :
  currentQuiz (this c) = Some quiz ->
  (normalize content = [] /\ QuizState.correctAnswer quiz <> []) \/
  (normalize content <> [] /\ QuizState.correctAnswer quiz = []) ->
  checkAnswer (QuizState.chatId quiz) content key c
    = sender_sendReact (QuizState.chatId quiz) SPARKLES key c.
Proof.
  intros Hq Hempty. rewrite (checkAnswer_active c quiz content key Hq).
  assert (matchTier (normalize content) (QuizState.correctAnswer quiz)
          = Partial) as ->; [| done].
  unfold matchTier.
  destruct Hempty as [[-> Hy] | [Hx ->]].
  - rewrite bool_decide_false by done.
    by destruct (QuizState.correctAnswer quiz).
  - rewrite bool_decide_false by done.
    by destruct (normalize content).
Qed.

(** X13. Once an exact answer has been handled, whatever is checked next is
    ignored. *)
Theorem checkAnswer_after_exact c quiz content key chatId' content' key' :
  currentQuiz (this c) = Some quiz ->
  normalize content = QuizState.correctAnswer quiz ->
  (checkAnswer (QuizState.chatId quiz) content key
     ≫= fun _ => checkAnswer chatId' content' key') c
  = checkAnswer (QuizState.chatId quiz) content key c.
Proof.
  intros Hq Hexact. rewrite bind_unfold.
  rewrite (checkAnswer_active c quiz content key Hq).
  apply matchTier_Exact in Hexact. rewrite Hexact.
  unfold respond, endQuiz. run.
  case_sends; [done | done |].
  rewrite Hq. cbn [this world calls sender currentQuiz options].
  destruct (onQuizEnd (options (this c)));
    by rewrite checkAnswer_no_session.
Qed.

(** ** Invariants over the engine's lifetime *)


Lemma serve_frame (r : Request) c :
  sender (this (snd (serve r c))) = sender (this c) /\
  options (this (snd (serve r c))) = options (this c) /\
  (exists new, calls (snd (serve r c)) = calls c ++ new) /\
  (session_wf c -> session_wf (snd (serve r c))).
Proof.
  destruct r as [chat question answer reply | reason | chat content key].
  - unfold serve, startQuiz. run.
    destruct (currentQuiz (this c)) as [quiz|] eqn:Hq;
      [split_and!; [done | done | exists []; by rewrite app_nil_r | done] |].
    case_sends; [split_and!; [done | done | by eexists | done] |].
    destruct (onQuizStart (options (this c)));
      cbn [this world calls sender currentQuiz options fst snd];
      (split; [done | split; [done | split; [rewrite <- ?app_assoc; by eexists |]]]);
      intros _ quiz [= <-]; (split; [done | by exists answer]).
  - unfold serve, endQuiz. run.
    destruct (currentQuiz (this c)) as [quiz|] eqn:Hq;
      [| split_and!; [done | done | exists []; by rewrite app_nil_r | done]].
    destruct (onQuizEnd (options (this c)));
      cbn [this world calls sender currentQuiz options fst snd];
      (split; [done | split; [done | split; [|done]]]);
      [by eexists | exists []; by rewrite app_nil_r].
  - cbn [serve].
    destruct (checkAnswer_effect c chat content key)
      as (Hs & Ho & Hc & [Hkeep | (Hnone & _)]);
      (split; [done | split; [done | split; [done |]]]); unfold session_wf.
    + by rewrite Hkeep.
    + by rewrite Hnone.
Qed.


(** X14. Over any sequence of requests the engine keeps its sender and its
    options, its call log only grows, and every session it holds has
    [active = true] and a normalized answer. *)
Theorem serveAll_invariant (rs : list Request) c :
  session_wf c ->
  session_wf (serveAll rs c) /\
  sender (this (serveAll rs c)) = sender (this c) /\
  options (this (serveAll rs c)) = options (this c) /\
  exists new, calls (serveAll rs c) = calls c ++ new.
Proof.
  revert c. induction rs as [|r rs IH]; intros c Hwf.
  { split_and!; [done | done | done |]. exists []. by rewrite app_nil_r. }
  cbn [serveAll].
  destruct (serve_frame r c) as (Hs & Ho & (new & Hc) & Hstep).
  destruct (IH _ (Hstep Hwf)) as (Hwf' & Hs' & Ho' & (new' & Hc')).
  split_and!; [done | congruence | congruence |].
  exists (new ++ new'). by rewrite Hc', Hc, app_assoc.
Qed.

End EngineMore.

(** ** Extracting the text of a message *)

Lemma truthy_Some (s : option jsstring) :
  truthy s = true -> exists c rest, s = Some (c :: rest).
Proof. destruct s as [[|c rest]|]; [done | by eexists _, _ | done]. Qed.

(** X16. [Kotaete.extractMessageContent] answers [null] or a non-empty string,
    and [null] exactly when the message has no non-empty text, extended
    text or caption. *)
Theorem extractMessageContent_nonempty (message : option Message.t) :
  (forall s, extractMessageContent message = Some s -> s <> []) /\
  (extractMessageContent message = None <->
   forall m, message = Some m ->
     truthy (Message.conversation m) = false /\
     truthy (Message.extendedTextMessage m ≫= text) = false /\
     truthy (Message.imageMessage m ≫= caption) = false /\
     truthy (Message.videoMessage m ≫= caption) = false /\
     truthy (Message.documentMessage m ≫= caption) = false).
Proof.
  destruct message as [m|]; [| by split].
  unfold extractMessageContent.
  destruct (Message.conversation m) as [[|c1 r1]|] eqn:H1; cbn [truthy].
  2:{ split; [by intros s [= <-] |]. split; [done |].
      intros H. destruct (H m eq_refl) as (E & _). by rewrite H1 in E. }
  all: destruct (Message.extendedTextMessage m ≫= text) as [[|c2 r2]|] eqn:H2;
    cbn [truthy].
  2,5:(split; [by intros s [= <-] |]; split; [done |];
       intros H; destruct (H m eq_refl) as (_ & E & _); by rewrite H2 in E).
  all: destruct (Message.imageMessage m ≫= caption) as [[|c3 r3]|] eqn:H3;
    cbn [truthy].
  2,5,8,11:(split; [by intros s [= <-] |]; split; [done |];
       intros H; destruct (H m eq_refl) as (_ & _ & E & _); by rewrite H3 in E).
  all: destruct (Message.videoMessage m ≫= caption) as [[|c4 r4]|] eqn:H4;
    cbn [truthy];
    try (split; [by intros s [= <-] |]; split; [done |];
         intros H; destruct (H m eq_refl) as (_ & _ & _ & E & _);
         by rewrite H4 in E).
  all: destruct (Message.documentMessage m ≫= caption) as [[|c5 r5]|] eqn:H5;
    cbn [truthy];
    try (split; [by intros s [= <-] |]; split; [done |];
         intros H; destruct (H m eq_refl) as (_ & _ & _ & _ & E);
         by rewrite H5 in E).
  all: split; [done |]; split; [| done]; intros _ m' [= <-];
    by rewrite ?H1, ?H2, ?H3, ?H4, ?H5.
Qed.


(** ** The bridge server *)

Section BridgeFacts.
Context {World : Type} {RT : Runtime World}.
Variable super_handleCommand : Command.t -> B World unit.
Implicit Types (b : Bridge World) (k : Kotaete World).



(** X19. A [quiz_start] while a quiz is active is answered with the error
    text of [startQuiz], and nothing else changes. *)
Theorem handleCommand_quiz_start_while_active cmd b k quiz :
  kotaete b = Some k ->
  currentQuiz k = Some quiz ->
  Command.type cmd = js "quiz_start" ->
  handleCommand super_handleCommand cmd b
  = (inr tt,
     {| kotaete := Some k; outside := outside b; made := made b;
        sent := sent b ++ [reply_error (js "Error: A quiz is already active")] |}).
Proof.
  intros Hk Hq Htype. unfold handleCommand. rewrite Hk, Htype.
  rewrite bool_decide_true by done. unfold onKotaete, startQuiz. run.
  rewrite Hq. by destruct k.
Qed.


(** X21. A [quiz_status] command changes nothing but the replies; it reports
    the stored session, and [active] exactly when there is one. *)
Theorem handleCommand_quiz_status cmd b k :
  kotaete b = Some k ->
  Command.type cmd = js "quiz_status" ->
  handleCommand super_handleCommand cmd b
  = (inr tt,
     {| kotaete := kotaete b; outside := outside b; made := made b;
        sent := sent b ++ [reply_quiz_status
                             (bool_decide (is_Some (currentQuiz k)))
                             (currentQuiz k)] |}).
Proof.
  intros Hk Htype. unfold handleCommand. rewrite Hk, Htype.
  rewrite !bool_decide_false by done. rewrite bool_decide_true by done.
  unfold ws_send, isQuizActive, getQuiz. cbn [this]. rewrite Hk.
  by destruct (currentQuiz k).
Qed.

(** X22. [handleIgnoredGroupMessage] does nothing at all for a message without
    text, before the engine exists, while no quiz is active, and for a
    message of another chat than the quiz. *)
Theorem handleIgnoredGroupMessage_ignores (msg : RawMessage.t) b :
  extractMessageContent (RawMessage.message msg) = None \/
  kotaete b = None \/
  (exists k, kotaete b = Some k /\
     (currentQuiz k = None \/
      exists quiz, currentQuiz k = Some quiz /\
        QuizState.chatId quiz <> RawKey.remoteJid (RawMessage.key msg))) ->
  handleIgnoredGroupMessage msg b = (inr tt, b).
Proof.
  unfold handleIgnoredGroupMessage.
  intros [Hnone | [Hk | (k & Hk & Hq)]].
  - rewrite Hnone. by destruct (kotaete b).
  - by rewrite Hk.
  - rewrite Hk.
    destruct (extractMessageContent (RawMessage.message msg)) as [[|c s]|];
      [done | | done].
    cbn [truthy]. unfold onKotaete.
    assert (checkAnswer (RawKey.remoteJid (RawMessage.key msg)) (c :: s)
              (MessageKey.mk (RawKey.id (RawMessage.key msg))
                             (RawKey.remoteJid (RawMessage.key msg)))
              {| this := k; world := outside b; calls := made b |}
            = (inr tt, {| this := k; world := outside b; calls := made b |}))
      as ->.
    { destruct Hq as [Hq | (quiz & Hq & Hne)].
      - by apply checkAnswer_no_session.
      - by apply (checkAnswer_other_chat _ quiz). }
    cbn [this world calls]. destruct b; cbn in *. by subst.
Qed.
End BridgeFacts.

(** ** Mentions *)

Section MentionFacts.
Variable lidMapping : option (jsstring -> option jsstring).

Lemma resolve_phone ds :
  digitsOnly ds = true ->
  fst (resolveAndSanitizePhoneNumber lidMapping (ds ++ S_WHATSAPP_NET)) = ds.
Proof.
  intros Hds. rewrite resolve_fst, endsWith_host_not_lid.
  by rewrite replaceDeviceSuffix_phone, replaceFirst_host_phone.
Qed.

Lemma resolve_phone_device ds d dev :
  digitsOnly ds = true -> isDigit d = true -> digitsOnly dev = true ->
  fst (resolveAndSanitizePhoneNumber lidMapping
         (ds ++ 58%N :: d :: dev ++ S_WHATSAPP_NET)) = ds.
Proof.
  intros Hds Hd Hdev. rewrite resolve_fst.
  replace (ds ++ 58%N :: d :: dev ++ S_WHATSAPP_NET)
    with ((ds ++ 58%N :: d :: dev) ++ S_WHATSAPP_NET) at 1
    by (by rewrite <- app_assoc).
  rewrite endsWith_host_not_lid.
  by rewrite replaceDeviceSuffix_device, replaceFirst_host_digits.
Qed.

Lemma resolve_unmapped_lid jid :
  endsWith jid (js "@lid") = true ->
  lidMapping = None \/
  (exists getPNForLID, lidMapping = Some getPNForLID /\
     (getPNForLID jid = None \/ getPNForLID jid = Some [])) ->
  digitsOnly (fst (resolveAndSanitizePhoneNumber lidMapping jid)) = false.
Proof.
  intros Hlid Hno. apply endsWith_lid_not_digits.
  rewrite resolve_fst, Hlid.
  assert (replaceDeviceSuffix jid = jid) as Hdev.
  { apply replaceDeviceSuffix_other.
    apply endsWith_spec in Hlid as [pre ->].
    change (js "@lid") with ([64; 108; 105]%N ++ [100%N]).
    by rewrite app_assoc, last_snoc. }
  destruct Hno as [-> | (getPNForLID & -> & [-> | ->])]; rewrite Hdev;
    by apply replaceFirst_host_keeps_lid.
Qed.

Lemma isUserMentioned_fst mentions userJid :
  fst (isUserMentioned lidMapping mentions userJid)
  = existsb
      (fun m => bool_decide
         (fst (resolveAndSanitizePhoneNumber lidMapping m)
          = fst (resolveAndSanitizePhoneNumber lidMapping userJid)))
      mentions.
Proof.
  unfold isUserMentioned. cbv [mbind Traced_bind].
  destruct (resolveAndSanitizePhoneNumber lidMapping userJid) as [pn t].
  rewrite mentionLoop_spec. done.
Qed.

(** X23. The user counts as mentioned whenever its phone number is: the
    address with a device segment and the plain address are the same
    identity, whichever of the two the mention list holds. *)
Theorem isUserMentioned_ignores_device ds d dev mentions :
  digitsOnly ds = true -> isDigit d = true -> digitsOnly dev = true ->
  let plain := ds ++ S_WHATSAPP_NET in
  let device := ds ++ 58%N :: d :: dev ++ S_WHATSAPP_NET in
  (In plain mentions -> fst (isUserMentioned lidMapping mentions device) = true) /\
  (In device mentions -> fst (isUserMentioned lidMapping mentions plain) = true).
Proof.
  intros Hds Hd Hdev plain device. split; intros Hin;
    rewrite isUserMentioned_fst; apply existsb_exists; eexists;
    (split; [exact Hin |]); apply bool_decide_eq_true;
    subst plain device; by rewrite resolve_phone, resolve_phone_device.
Qed.

(** X24. A user address in linked-identity form that the directory cannot map
    matches no phone-number mention: the unresolved address keeps its
    [@lid] ending, the mentions resolve to digits. *)
Theorem isUserMentioned_unmapped_lid userJid mentions :
  endsWith userJid (js "@lid") = true ->
  lidMapping = None \/
  (exists getPNForLID, lidMapping = Some getPNForLID /\
     (getPNForLID userJid = None \/ getPNForLID userJid = Some [])) ->
  Forall (fun m => exists ds, digitsOnly ds = true /\
            (m = ds ++ S_WHATSAPP_NET \/
             exists d dev, isDigit d = true /\ digitsOnly dev = true /\
               m = ds ++ 58%N :: d :: dev ++ S_WHATSAPP_NET)) mentions ->
  fst (isUserMentioned lidMapping mentions userJid) = false.
Proof.
  intros Hlid Hno Hphones. rewrite isUserMentioned_fst.
  pose proof (resolve_unmapped_lid userJid Hlid Hno) as Huser.
  induction Hphones as [|m ms (ds & Hds & Hm) _ IH]; [done |].
  cbn [existsb]. rewrite IH, orb_false_r. apply bool_decide_eq_false.
  intros Heq. rewrite <- Heq in Huser.
  destruct Hm as [-> | (d & dev & Hd & Hdev & ->)].
  - rewrite resolve_phone in Huser by done. congruence.
  - rewrite resolve_phone_device in Huser by done. congruence.
Qed.
End MentionFacts.

(** ** Routing inbound messages *)

Section RouteFacts.
Variable lidMapping : option (jsstring -> option jsstring).
Variable userId : option jsstring.
Variable hasOnIgnoredGroupMessage : bool.

Let route := WhatsAppClient.route lidMapping userId hasOnIgnoredGroupMessage.
Let routeAll := WhatsAppClient.routeAll lidMapping userId hasOnIgnoredGroupMessage.

Lemma client_extract_nonempty (msg : WAMessage.t) s :
  WhatsAppClient.extractMessageContent msg = Some s -> s <> [].
Proof.
  unfold WhatsAppClient.extractMessageContent.
  destruct (WAMessage.message msg) as [m|]; [| done].
  destruct (Message.conversation m) as [[|? ?]|]; cbn [truthy];
    try (by intros [= <-]).
  all: destruct (Message.extendedTextMessage m ≫= text) as [[|? ?]|];
    cbn [truthy]; try (by intros [= <-]).
  all: destruct (Message.imageMessage m ≫= caption) as [[|? ?]|];
    try (by intros [= <-]).
  all: destruct (Message.videoMessage m ≫= caption) as [[|? ?]|];
    try (by intros [= <-]).
  all: destruct (Message.documentMessage m ≫= caption) as [[|? ?]|];
    try (by intros [= <-]).
  all: destruct (Message.audioMessage m); by intros [= <-].
Qed.

(** X25. Own messages, status broadcasts and messages without extractable
    content reach no handler, and neither they nor private messages cause a
    resolution; a private message with content always goes to [onMessage]. *)
Theorem route_without_resolution (msg : WAMessage.t) :
  (WAMessageKey.fromMe (WAMessage.key msg) = true \/
   WAMessageKey.remoteJid (WAMessage.key msg) = Some (js "status@broadcast") \/
   WhatsAppClient.extractMessageContent msg = None ->
   route msg = ([], [])) /\
  (forall content,
     WAMessageKey.fromMe (WAMessage.key msg) = false ->
     WAMessageKey.remoteJid (WAMessage.key msg) <> Some (js "status@broadcast") ->
     WhatsAppClient.extractMessageContent msg = Some content ->
     isGroupMessage msg = false ->
     route msg
     = ([OnMessage (WhatsAppClient.createInboundMessage msg content false)], [])).
Proof.
  subst route. unfold WhatsAppClient.route, WhatsAppClient.deliver. split.
  - intros [Hme | [Hstatus | Hnone]].
    + by rewrite Hme.
    + destruct (WAMessageKey.fromMe _); [done |].
      rewrite bool_decide_true by done. reflexivity.
    + destruct (WAMessageKey.fromMe _); [done |].
      case_bool_decide; [done |]. rewrite Hnone. reflexivity.
  - intros content Hme Hstatus Hcontent Hgroup. rewrite Hme.
    unfold isGroupMessage in Hgroup.
    rewrite bool_decide_false by done. rewrite Hcontent.
    destruct content as [|c s];
      [by apply client_extract_nonempty in Hcontent |].
    cbn [truthy]. rewrite Hgroup. reflexivity.
Qed.

Lemma route_group_run (msg : WAMessage.t) content :
  WAMessageKey.fromMe (WAMessage.key msg) = false ->
  WhatsAppClient.extractMessageContent msg = Some content ->
  isGroupMessage msg = true ->
  let r := isUserMentioned lidMapping (mentionsOf msg)
             (WhatsAppClient.orEmpty userId) in
  route msg
  = (if fst r then
       [OnMessage (WhatsAppClient.createInboundMessage msg content true)]
     else if hasOnIgnoredGroupMessage then [OnIgnoredGroupMessage msg]
     else [],
     snd r).
Proof.
  intros Hme Hcontent Hgroup r. subst r route.
  unfold WhatsAppClient.route, WhatsAppClient.deliver. rewrite Hme.
  unfold isGroupMessage in Hgroup.
  case_bool_decide as Hstatus.
  { rewrite Hstatus in Hgroup. by vm_compute in Hgroup. }
  rewrite Hcontent.
  destruct content as [|c s];
    [by apply client_extract_nonempty in Hcontent |].
  cbn [truthy]. rewrite Hgroup. fold (mentionsOf msg).
  cbv [mbind Traced_bind mret Traced_ret].
  destruct (isUserMentioned _ _ _) as [[|] t]; cbn [fst snd];
    [| destruct hasOnIgnoredGroupMessage]; by rewrite app_nil_r.
Qed.

(** X26. A group message with content goes to [onMessage] if the user is
    mentioned and otherwise to [onIgnoredGroupMessage], unchanged, when that
    handler is set: one handler, never both; the only resolutions are those
    of the mention check. *)
Theorem route_group (msg : WAMessage.t) content :
  WAMessageKey.fromMe (WAMessage.key msg) = false ->
  WhatsAppClient.extractMessageContent msg = Some content ->
  isGroupMessage msg = true ->
  let r := isUserMentioned lidMapping (mentionsOf msg)
             (WhatsAppClient.orEmpty userId) in
  snd (route msg) = snd r /\
  (fst r = true ->
   fst (route msg)
   = [OnMessage (WhatsAppClient.createInboundMessage msg content true)]) /\
  (fst r = false ->
   fst (route msg)
   = if hasOnIgnoredGroupMessage then [OnIgnoredGroupMessage msg] else []).
Proof.
  intros Hme Hcontent Hgroup r.
  rewrite (route_group_run msg content Hme Hcontent Hgroup). fold r.
  cbn [fst snd]. split_and!; [done | by intros -> | by intros ->].
Qed.

(** X27. A group message that mentions the user's plain phone address goes to
    [onMessage] although the user's own id carries a device segment. *)
Theorem route_mention_of_phone (msg : WAMessage.t) content ds d dev :
  WAMessageKey.fromMe (WAMessage.key msg) = false ->
  WhatsAppClient.extractMessageContent msg = Some content ->
  isGroupMessage msg = true ->
  digitsOnly ds = true -> isDigit d = true -> digitsOnly dev = true ->
  userId = Some (ds ++ 58%N :: d :: dev ++ S_WHATSAPP_NET) ->
  In (ds ++ S_WHATSAPP_NET) (mentionsOf msg) ->
  fst (route msg)
  = [OnMessage (WhatsAppClient.createInboundMessage msg content true)].
Proof.
  intros Hme Hcontent Hgroup Hds Hd Hdev Huser Hin.
  rewrite (route_group_run msg content Hme Hcontent Hgroup). cbn [fst].
  assert (fst (isUserMentioned lidMapping (mentionsOf msg)
                 (WhatsAppClient.orEmpty userId)) = true) as ->; [| done].
  rewrite Huser. unfold WhatsAppClient.orEmpty. cbn [from_option id].
  rewrite isUserMentioned_fst. apply existsb_exists. eexists.
  split; [exact Hin |]. apply bool_decide_eq_true.
  by rewrite resolve_phone, resolve_phone_device.
Qed.

Lemma route_at_most_one (msg : WAMessage.t) : length (fst (route msg)) <= 1.
Proof.
  subst route. unfold WhatsAppClient.route, WhatsAppClient.deliver.
  destruct (WAMessageKey.fromMe _); [cbn; lia |].
  case_bool_decide; [cbn; lia |].
  destruct (WhatsAppClient.extractMessageContent msg) as [[|c s]|];
    cbn [truthy]; [cbn; lia | | cbn; lia].
  destruct (match WAMessageKey.remoteJid _ with Some _ => _ | None => _ end);
    [| cbn; lia].
  cbv [mbind Traced_bind mret Traced_ret].
  destruct (isUserMentioned _ _ _) as [[|] t];
    [| destruct hasOnIgnoredGroupMessage]; cbn; lia.
Qed.

Lemma routeAll_concat (messages : list WAMessage.t) :
  routeAll messages
  = (concat (map (fun msg => fst (route msg)) messages),
     concat (map (fun msg => snd (route msg)) messages)).
Proof.
  subst routeAll route. induction messages as [|msg rest IH]; [done |].
  cbn [WhatsAppClient.routeAll map concat]. rewrite IH.
  cbv [mbind Traced_bind mret Traced_ret].
  destruct (WhatsAppClient.route _ _ _ msg) as [here t]. cbn [fst snd].
  by rewrite app_nil_r.
Qed.

(** X28. A batch that is not of type [notify] reaches no handler and resolves
    nothing.  A [notify] batch is handled message by message, in order, and
    at most one handler call is made per message. *)
Theorem onMessagesUpsert_batch (messages : list WAMessage.t) (type : jsstring) :
  let r := WhatsAppClient.onMessagesUpsert lidMapping userId
             hasOnIgnoredGroupMessage messages type in
  (type <> js "notify" -> r = ([], [])) /\
  (type = js "notify" ->
   fst r = concat (map (fun msg => fst (route msg)) messages) /\
   snd r = concat (map (fun msg => snd (route msg)) messages)) /\
  length (fst r) <= length messages.
Proof.
  intros r. subst r. unfold WhatsAppClient.onMessagesUpsert.
  case_bool_decide as Htype; cbn [negb].
  - fold routeAll. rewrite routeAll_concat. cbn [fst snd].
    split_and!; [done | done |].
    clear Htype. induction messages as [|msg rest IH]; [done |].
    cbn [map concat length]. rewrite length_app.
    pose proof (route_at_most_one msg). lia.
  - split_and!; [done | done | cbn; lia].
Qed.
End RouteFacts.

(** ** The engine on the client's sender *)

Section ClientSenderFacts.
Context {World : Type} {RT : Runtime World}.
Variable super_handleCommand : Command.t -> B World unit.

(** X29. While the client is not connected, a [quiz_start] on an idle engine
    is answered with the error [Error: Not connected]; the engine stays
    idle and the world is not touched. *)
Theorem handleCommand_quiz_start_disconnected cmd (b : Bridge World) k :
  kotaete b = Some k ->
  sender k = clientSender None ->
  currentQuiz k = None ->
  Command.type cmd = js "quiz_start" ->
  handleCommand super_handleCommand cmd b
  = (inr tt,
     {| kotaete := Some k; outside := outside b;
        made := made b ++ [SendMessage (Command.chatId cmd)
                             (quizMessage (Command.question cmd))];
        sent := sent b ++ [reply_error (js "Error: Not connected")] |}).
Proof.
  intros Hk Hsender Hq Htype. unfold handleCommand. rewrite Hk, Htype.
  rewrite bool_decide_true by done. unfold onKotaete, startQuiz. run.
  rewrite Hq. cbn [this world calls sender currentQuiz options].
  rewrite Hsender. cbn. by destruct k.
Qed.
End ClientSenderFacts.

(** ** The further properties at concrete inputs *)

Lemma levenshteinDistance_optimal_witness :
  levenshteinDistance (js "paris") (js "paris") <= 0.
Proof.
  apply (proj2 (levenshteinDistance_optimal (js "paris") (js "paris")) 0).
  apply Edits_refl.
Defined.

Lemma levenshteinDistance_zero_iff_witness :
  levenshteinDistance (js "paris") (js "paris") = 0.
Proof.
  apply (proj2 (levenshteinDistance_zero_iff (js "paris") (js "paris"))).
  reflexivity.
Defined.

Lemma isCloseMatch_not_symmetric_witness :
  isCloseMatch (js "abcdefghij") (js "xbcdefghijyz") = false /\
  isCloseMatch (js "xbcdefghijyz") (js "abcdefghij") = true.
Proof.
  apply (isCloseMatch_not_symmetric (js "abcdefghij") (js "xbcdefghijyz"));
    [vm_compute; lia | vm_compute; lia | reflexivity].
Defined.

Lemma isCloseMatch_gap_witness :
  length (js "paxis") <= length (js "pariss") + 2 /\
  length (js "pariss") <= length (js "paxis") + 2.
Proof. apply (isCloseMatch_gap (js "paxis") (js "pariss")). reflexivity. Defined.

Lemma isCloseMatch_threshold_by_length_witness :
  isCloseMatch (js "the capital of france") (js "the capitol of franse")
  = (levenshteinDistance (js "the capital of france")
       (js "the capitol of franse") <=? 3).
Proof.
  apply (proj1 (proj2 (isCloseMatch_threshold_by_length
                         (js "the capital of france")
                         (js "the capitol of franse")))).
  change (10 < 21 /\ 21 < 40). lia.
Defined.


Lemma checkAnswer_exact_send_failure_witness :
  checkAnswer (js "G1") (js "Paris") aKey (parisOn downSender)
  = (inl (Error (js "Not connected")),
     {| this := this (parisOn downSender); world := 0%Z;
        calls := [SendReact (js "G1") CHECK_MARK aKey] |}) /\
  checkAnswer (js "G1") (js "Paris") aKey (parisOn reactOnlySender)
  = (inl (Error (js "Not connected")),
     {| this := this (parisOn reactOnlySender); world := 0%Z;
        calls := [SendReact (js "G1") CHECK_MARK aKey;
                  SendMessage (js "G1") (CHECK_MARK ++ js " Correct!")] |}).
Proof.
  split.
  - apply (proj1 (checkAnswer_exact_send_failure (parisOn downSender)
                    parisSession (js "Paris") aKey
                    (Error (js "Not connected")) 0%Z ltac:(reflexivity) ltac:(reflexivity))).
    reflexivity.
  - apply (proj2 (checkAnswer_exact_send_failure (parisOn reactOnlySender)
                    parisSession (js "Paris") aKey
                    (Error (js "Not connected")) 0%Z ltac:(reflexivity) ltac:(reflexivity)) 0%Z);
      reflexivity.
Defined.

Lemma checkAnswer_empty_is_partial_witness :
  checkAnswer (js "G1") (js "   ") aKey parisQuiz
  = sender_sendReact (js "G1") SPARKLES aKey parisQuiz.
Proof.
  apply (checkAnswer_empty_is_partial parisQuiz parisSession (js "   ") aKey
           ltac:(reflexivity)).
  left. split; [reflexivity | discriminate].
Defined.

Lemma checkAnswer_after_exact_witness :
  (checkAnswer (js "G1") (js "PARIS") aKey
     ≫= fun _ => checkAnswer (js "G1") (js "Paris") aKey) parisQuiz
  = checkAnswer (js "G1") (js "PARIS") aKey parisQuiz.
Proof.
  apply (checkAnswer_after_exact parisQuiz parisSession (js "PARIS") aKey
           (js "G1") (js "Paris") aKey); reflexivity.
Defined.

Lemma serveAll_invariant_witness :
  session_wf
    (serveAll [StartQuiz (js "G1") (js "Q") (js "Paris") None;
               CheckAnswer (js "G1") (js "Pariss") aKey;
               StartQuiz (js "G2") (js "Q2") (js "Rome") None]
       (newKotaete okSender bridgeOptions)).
Proof.
  apply (serveAll_invariant
           [StartQuiz (js "G1") (js "Q") (js "Paris") None;
            CheckAnswer (js "G1") (js "Pariss") aKey;
            StartQuiz (js "G2") (js "Q2") (js "Rome") None]
           (newKotaete okSender bridgeOptions)).
  intros quiz Hquiz. discriminate Hquiz.
Defined.


Lemma extractMessageContent_nonempty_witness : js "Paris" <> [].
Proof.
  apply (proj1 (extractMessageContent_nonempty
                  (Some (imageMessageOf (js "Paris"))))).
  reflexivity.
Defined.


Lemma handleCommand_quiz_start_while_active_witness :
  handleCommand noSuper (aCommand "quiz_start") (bridgeOf (Some (this parisQuiz)))
  = (inr tt,
     {| kotaete := Some (this parisQuiz); outside := 0%Z; made := [];
        sent := [reply_error (js "Error: A quiz is already active")] |}).
Proof.
  apply (handleCommand_quiz_start_while_active noSuper (aCommand "quiz_start")
           (bridgeOf (Some (this parisQuiz))) (this parisQuiz) parisSession);
    reflexivity.
Defined.


Lemma handleCommand_quiz_status_witness :
  handleCommand noSuper (aCommand "quiz_status") (bridgeOf (Some (this parisQuiz)))
  = (inr tt,
     {| kotaete := Some (this parisQuiz); outside := 0%Z; made := [];
        sent := [reply_quiz_status true (Some parisSession)] |}).
Proof.
  apply (handleCommand_quiz_status noSuper (aCommand "quiz_status")
           (bridgeOf (Some (this parisQuiz))) (this parisQuiz)); reflexivity.
Defined.

Lemma handleIgnoredGroupMessage_ignores_witness :
  handleIgnoredGroupMessage (rawFrom "G2" (textMessage (js "Paris")))
    (bridgeOf (Some (this parisQuiz)))
  = (inr tt, bridgeOf (Some (this parisQuiz))).
Proof.
  apply (handleIgnoredGroupMessage_ignores
           (rawFrom "G2" (textMessage (js "Paris")))
           (bridgeOf (Some (this parisQuiz)))).
  right; right. exists (this parisQuiz). split; [reflexivity |].
  right. exists parisSession. split; [reflexivity | discriminate].
Defined.

Lemma isUserMentioned_ignores_device_witness :
  fst (isUserMentioned None
         [js "77001122@lid"; js "628111222333@s.whatsapp.net"] botJid) = true.
Proof.
  apply (proj1 (isUserMentioned_ignores_device None (js "628111222333")
                  49%N (js "2")
                  [js "77001122@lid"; js "628111222333@s.whatsapp.net"]
                  ltac:(reflexivity) ltac:(reflexivity) ltac:(reflexivity))).
  right; left; reflexivity.
Defined.

Lemma isUserMentioned_unmapped_lid_witness :
  fst (isUserMentioned (Some aDirectory)
         [js "628111222333@s.whatsapp.net"] (js "99@lid")) = false.
Proof.
  apply (isUserMentioned_unmapped_lid (Some aDirectory) (js "99@lid")
           [js "628111222333@s.whatsapp.net"] ltac:(reflexivity)).
  - right. exists aDirectory. split; [reflexivity | left; reflexivity].
  - constructor; [| constructor].
    exists (js "628111222333"). split; [reflexivity | left; reflexivity].
Defined.

Lemma route_without_resolution_witness :
  WhatsAppClient.route None (Some botJid) true
    (inbound "628999@s.whatsapp.net" (textMessage (js "hello")))
  = ([OnMessage (WhatsAppClient.createInboundMessage
                   (inbound "628999@s.whatsapp.net" (textMessage (js "hello")))
                   (js "hello") false)], []).
Proof.
  apply (proj2 (route_without_resolution None (Some botJid) true
                  (inbound "628999@s.whatsapp.net" (textMessage (js "hello"))))
           (js "hello")); [reflexivity | discriminate | reflexivity..].
Defined.

Lemma route_group_witness :
  fst (WhatsAppClient.route None (Some botJid) true
         (inbound "123-456@g.us" (textMessage (js "Paris"))))
  = [OnIgnoredGroupMessage (inbound "123-456@g.us" (textMessage (js "Paris")))].
Proof.
  apply (proj2 (proj2 (route_group None (Some botJid) true
                  (inbound "123-456@g.us" (textMessage (js "Paris")))
                  (js "Paris") ltac:(reflexivity) ltac:(reflexivity) ltac:(reflexivity)))).
  reflexivity.
Defined.

Lemma route_mention_of_phone_witness :
  fst (WhatsAppClient.route None (Some botJid) true
         (inbound "123-456@g.us"
            (mentioning (js "hi bot") [js "628111222333@s.whatsapp.net"])))
  = [OnMessage (WhatsAppClient.createInboundMessage
                  (inbound "123-456@g.us"
                     (mentioning (js "hi bot")
                        [js "628111222333@s.whatsapp.net"]))
                  (js "hi bot") true)].
Proof.
  apply (route_mention_of_phone None (Some botJid) true _ (js "hi bot")
           (js "628111222333") 49%N (js "2"));
    try reflexivity.
  left. reflexivity.
Defined.

Lemma onMessagesUpsert_batch_witness :
  WhatsAppClient.onMessagesUpsert None (Some botJid) true
    [inbound "123-456@g.us" (textMessage (js "Paris"))] (js "append")
  = ([], []).
Proof.
  apply (proj1 (onMessagesUpsert_batch None (Some botJid) true
                  [inbound "123-456@g.us" (textMessage (js "Paris"))]
                  (js "append"))).
  discriminate.
Defined.

Lemma handleCommand_quiz_start_disconnected_witness :
  handleCommand noSuper (aCommand "quiz_start")
    (bridgeOf (Some (this (newKotaete (clientSender None) bridgeOptions))))
  = (inr tt,
     {| kotaete := Some (this (newKotaete (clientSender None) bridgeOptions));
        outside := 0%Z;
        made := [SendMessage (js "G1") (quizMessage (js "Q"))];
        sent := [reply_error (js "Error: Not connected")] |}).
Proof.
  apply (handleCommand_quiz_start_disconnected noSuper (aCommand "quiz_start")
           (bridgeOf (Some (this (newKotaete (clientSender None) bridgeOptions))))
           (this (newKotaete (clientSender None) bridgeOptions)));
    reflexivity.
Defined.
